(** * http-graceful-shutdown: a shallow embedding of [lib/index.js]

    The library keeps three module-level variables ([isShuttingDown],
    [connections], [connectionCounter]), installs handlers on the server
    and on the process, and reacts to the events the runtime delivers.
    The embedding below models

    - the JavaScript heap of socket objects and the [connections] object
      that aliases them,
    - every handler of the source as a computation in a small
      state/output monad in which [process.exit] cuts the running
      handler short,
    - the runtime as a stream of events (connection, request, finish,
      close, signal, listener closed, timer, promise settled).

    Conventions.  One call of [GracefulShutdown] per process.  The user
    callback honours its contract: it returns, either a thenable or
    something else, and a thenable runs at most one of the two handlers
    given to [then], later.  A process that ends because its event loop
    is empty (the timer is [unref]'d) is outside the model: only
    [process.exit] and an uncaught TypeError end it here. *)

From Stdlib Require Import ZArith Lia Ascii String.
From stdpp Require Import gmap strings list fin_maps sorting.

Local Open Scope string_scope.
Local Open Scope nat_scope.
Local Open Scope list_scope.

(** ** Data model *)

(** A socket object, with the two fields the library tags it with
    ([socket._isIdle], [socket._connectionId]) and whether
    [socket.destroy()] has been called on it. *)
Record Socket := mkSocket {
  _isIdle : bool;
  _connectionId : nat;
  destroyed : bool
}.

(** What [options.callback()] hands back: a thenable
    ([maybePromise && typeof maybePromise.then == "function"]) or
    anything else. *)
Inductive CallbackResult := NotThenable | Thenable.

(** The user callback; its argument is the number of earlier
    invocations, so that successive calls may answer differently. *)
Definition Callback := nat -> CallbackResult.

(** The [opts] argument as the caller wrote it: [None] is a property
    that is absent (or [undefined]). *)
Record RawOptions := mkRaw {
  raw_signals : option string;
  raw_timeout : option Z;
  raw_development : option bool;
  raw_callback : option Callback
}.

(** [options] after [_.defaults]. *)
Record Options := mkOptions {
  signals : string;
  timeout : Z;
  development : bool;
  callback : option Callback
}.

Inductive Status :=
| Alive
| Exited (code : Z)       (* process.exit(code) was called *)
| Crashed.                (* an uncaught TypeError ended the process *)

(** The arguments of the calls to [debug]. *)
Inductive DebugMsg :=
| DbgSignal (sig : string)            (* 'shutdown signal - ' + sig *)
| DbgDevMode                          (* 'DEV-Mode - imediate forceful shutdown' *)
| DbgShuttingDown                     (* 'shutting down' *)
| DbgDestroyed (counter : nat)        (* 'Connections destroyed : ' + counter *)
| DbgCounter (connectionCounter : nat)(* 'Connection Counter    : ' + connectionCounter *)
| DbgTimeout (ms : Z)                 (* 'Could not close connections in time (...)' *)
| DbgClosed (err : option string).    (* "closed", err *)

(** What a handler does to the outside world, in program order. *)
Inductive Effect :=
| EDebug (m : DebugMsg)
| EServerClose                 (* server.close(function (err) {...}) *)
| ESocketDestroy (h : nat)     (* socket.destroy() on the socket object h *)
| ESetTimeout (ms : Z)         (* setTimeout(..., ms).unref() *)
| ECallback                    (* options.callback() *)
| EProcessExit (code : Z).     (* process.exit(code) *)

(** Module-level variables of the library, then what the runtime holds
    on its behalf. *)
Record State := mkState {
  isShuttingDown : bool;
  connections : gmap nat nat;        (* connection id -> socket object *)
  connectionCounter : nat;
  sockets : gmap nat Socket;         (* the heap of socket objects *)
  closeCallbacks : nat;              (* callbacks given to server.close, not yet run *)
  timers : nat;                      (* timers armed, not yet fired *)
  thenHandlers : nat;                (* handler pairs attached by [then], promise pending *)
  callbackCalls : nat;               (* invocations of options.callback so far *)
  status : Status
}.

(** [var isShuttingDown = false; var connections = {}; var connectionCounter = 0;] *)
Definition initial : State :=
  mkState false ∅ 0 ∅ 0 0 0 0 Alive.

Global Instance Status_eq_dec : EqDecision Status.
Proof. solve_decision. Defined.

Global Instance Socket_eq_dec : EqDecision Socket.
Proof. solve_decision. Defined.

Global Instance DebugMsg_eq_dec : EqDecision DebugMsg.
Proof. solve_decision. Defined.

Global Instance Effect_eq_dec : EqDecision Effect.
Proof. solve_decision. Defined.

Definition alive (st : State) : bool :=
  match status st with Alive => true | _ => false end.

(** ** Options *)

(** [_.defaults(opts, {signals: 'SIGINT SIGTERM', timeout: 30000,
    development: false})]: a property of [opts] that resolves to
    [undefined] takes the value of the source object; [callback] has no
    default. *)
Definition defaults (opts : RawOptions) : Options :=
  {| signals := default "SIGINT SIGTERM" (raw_signals opts);
     timeout := default 30000%Z (raw_timeout opts);
     development := default false (raw_development opts);
     callback := raw_callback opts |}.

(** [opts = opts || {}] followed by [_.defaults]. *)
Definition make_options (opts : option RawOptions) : Options :=
  defaults (default (mkRaw None None None None) opts).

(** [String.prototype.split] with a one-character separator. *)
Fixpoint split (sep : ascii) (s : string) : list string :=
  match s with
  | EmptyString => [EmptyString]
  | String c s' =>
      match split sep s' with
      | w :: ws => if decide (c = sep) then EmptyString :: w :: ws
                   else String c w :: ws
      | [] => [String c EmptyString]
      end
  end.

(** The signals for which [process.on(signal, ...)] is called, one entry
    per registered listener:
    [options.signals.split(' ').forEach(... if (signal && signal !== '') ...)]. *)
Definition subscribed (o : Options) : list string :=
  filter (λ signal, signal ≠ EmptyString) (split " "%char (signals o)).

(** [Object.keys(connections)]: integer-like keys come out in ascending
    numeric order. *)
Definition Object_keys (m : gmap nat nat) : list nat :=
  merge_sort Nat.le (elements (dom m)).

(** ** The handler monad

    A handler reads and writes the state and performs effects.  Its
    result is [None] when control never comes back to the caller, which
    is how [process.exit] (and an uncaught exception) behaves: the
    statements after it do not run. *)
Definition M (A : Type) : Type := State -> option A * State * list Effect.

Definition ret {A} (a : A) : M A := λ st, (Some a, st, []).

Definition bind {A B} (m : M A) (f : A -> M B) : M B := λ st,
  match m st with
  | (Some a, st1, e1) =>
      match f a st1 with
      | (r, st2, e2) => (r, st2, e1 ++ e2)
      end
  | (None, st1, e1) => (None, st1, e1)
  end.

Notation "x <- m ;; k" := (bind m (λ x, k))
  (at level 100, m at next level, right associativity).
Notation "m ;; k" := (bind m (λ _, k))
  (at level 100, right associativity).

Definition gets {A} (f : State -> A) : M A := λ st, (Some (f st), st, []).
Definition modify (f : State -> State) : M unit := λ st, (Some tt, f st, []).
Definition emit (e : Effect) : M unit := λ st, (Some tt, st, [e]).

Definition set_isShuttingDown (b : bool) (st : State) : State :=
  mkState b (connections st) (connectionCounter st) (sockets st)
    (closeCallbacks st) (timers st) (thenHandlers st) (callbackCalls st) (status st).
Definition set_connections (c : gmap nat nat) (st : State) : State :=
  mkState (isShuttingDown st) c (connectionCounter st) (sockets st)
    (closeCallbacks st) (timers st) (thenHandlers st) (callbackCalls st) (status st).
Definition set_connectionCounter (n : nat) (st : State) : State :=
  mkState (isShuttingDown st) (connections st) n (sockets st)
    (closeCallbacks st) (timers st) (thenHandlers st) (callbackCalls st) (status st).
Definition set_sockets (s : gmap nat Socket) (st : State) : State :=
  mkState (isShuttingDown st) (connections st) (connectionCounter st) s
    (closeCallbacks st) (timers st) (thenHandlers st) (callbackCalls st) (status st).
Definition set_closeCallbacks (n : nat) (st : State) : State :=
  mkState (isShuttingDown st) (connections st) (connectionCounter st) (sockets st)
    n (timers st) (thenHandlers st) (callbackCalls st) (status st).
Definition set_timers (n : nat) (st : State) : State :=
  mkState (isShuttingDown st) (connections st) (connectionCounter st) (sockets st)
    (closeCallbacks st) n (thenHandlers st) (callbackCalls st) (status st).
Definition set_thenHandlers (n : nat) (st : State) : State :=
  mkState (isShuttingDown st) (connections st) (connectionCounter st) (sockets st)
    (closeCallbacks st) (timers st) n (callbackCalls st) (status st).
Definition set_callbackCalls (n : nat) (st : State) : State :=
  mkState (isShuttingDown st) (connections st) (connectionCounter st) (sockets st)
    (closeCallbacks st) (timers st) (thenHandlers st) n (status st).
Definition set_status (s : Status) (st : State) : State :=
  mkState (isShuttingDown st) (connections st) (connectionCounter st) (sockets st)
    (closeCallbacks st) (timers st) (thenHandlers st) (callbackCalls st) s.

(** ** Runtime primitives *)

Definition debug (m : DebugMsg) : M unit := emit (EDebug m).

(** [process.exit(code)]: the process ends here. *)
Definition process_exit (code : Z) : M unit := λ st,
  (None, set_status (Exited code) st, [EProcessExit code]).

(** Reading a property of [undefined] throws a TypeError that nothing
    catches. *)
Definition throw_TypeError {A} : M A := λ st,
  (None, set_status Crashed st, []).

(** Dereference of a socket object. *)
Definition socket_of (h : nat) : M Socket := λ st,
  match sockets st !! h with
  | Some s => (Some s, st, [])
  | None => throw_TypeError st
  end.

Definition set_idle (b : bool) (s : Socket) : Socket :=
  mkSocket b (_connectionId s) (destroyed s).
Definition set_destroyed (s : Socket) : Socket :=
  mkSocket (_isIdle s) (_connectionId s) true.

(** [socket.destroy()] *)
Definition socket_destroy (h : nat) : M unit :=
  modify (λ st, set_sockets (alter set_destroyed h (sockets st)) st) ;;
  emit (ESocketDestroy h).

(** [delete connections[id]] *)
Definition delete_connection (id : nat) : M unit :=
  modify (λ st, set_connections (delete id (connections st)) st).

(** [server.close(cb)]: the runtime keeps [cb] until the listener is closed. *)
Definition server_close : M unit :=
  modify (λ st, set_closeCallbacks (S (closeCallbacks st)) st) ;;
  emit EServerClose.

(** [setTimeout(cb, ms).unref()] *)
Definition setTimeout_unref (ms : Z) : M unit :=
  modify (λ st, set_timers (S (timers st)) st) ;;
  emit (ESetTimeout ms).

(** [options.callback()] *)
Definition call_callback (cb : Callback) : M CallbackResult := λ st,
  (Some (cb (callbackCalls st)),
   set_callbackCalls (S (callbackCalls st)) st,
   [ECallback]).

(** [maybePromise.then(onFulfilled, onRejected)]: both handlers wait for
    the promise to settle. *)
Definition promise_then : M unit :=
  modify (λ st, set_thenHandlers (S (thenHandlers st)) st).

(** ** The library *)

(** [function destroy(socket)] *)
Definition destroy (h : nat) : M unit :=
  socket <- socket_of h ;;
  shuttingDown <- gets isShuttingDown ;;
  if _isIdle socket && shuttingDown then
    socket_destroy h ;;
    delete_connection (_connectionId socket)
  else ret tt.

(** [function exit(err)]: the call to [debug] sits after [process.exit]. *)
Definition exit (err : option string) : M unit :=
  process_exit 1 ;;
  debug (DbgClosed err).

(** [function handleCallbackThenExit()] *)
Definition handleCallbackThenExit (o : Options) : M unit :=
  match callback o with
  | Some cb =>
      maybePromise <- call_callback cb ;;
      match maybePromise with
      | Thenable => promise_then
      | NotThenable => exit None
      end
  | None => exit None
  end.

(** The body of [Object.keys(connections).forEach(function (key)
    { counter++; destroy(connections[key]); })], with the local variable
    [counter] threaded through. *)
Fixpoint sweep (keys : list nat) (counter : nat) : M nat :=
  match keys with
  | [] => ret counter
  | key :: rest =>
      socket <- gets (λ st, connections st !! key) ;;
      match socket with
      | Some h => destroy h ;; sweep rest (S counter)
      | None => throw_TypeError
      end
  end.

(** The block of [shutdown] guarded by [if (!isShuttingDown)]: the
    drain sequence. *)
Definition drain (o : Options) : M unit :=
  modify (set_isShuttingDown true) ;;
  debug DbgShuttingDown ;;
  server_close ;;
  keys <- gets (λ st, Object_keys (connections st)) ;;
  counter <- sweep keys 0 ;;
  debug (DbgDestroyed counter) ;;
  connectionCounter <- gets connectionCounter ;;
  debug (DbgCounter connectionCounter) ;;
  setTimeout_unref (timeout o).

(** [function shutdown(sig)] *)
Definition shutdown (o : Options) (sig : string) : M unit :=
  debug (DbgSignal sig) ;;
  (if development o then
     debug DbgDevMode ;;
     handleCallbackThenExit o
   else ret tt) ;;
  shuttingDown <- gets isShuttingDown ;;
  if negb shuttingDown then drain o else ret tt.

(** [server.on('connection', function (socket) {...})], for a socket
    object [h] the library has not seen before. *)
Definition on_connection (h : nat) : M unit :=
  id <- gets connectionCounter ;;
  modify (λ st, set_connectionCounter (S id) st) ;;
  modify (λ st, set_sockets (<[h := mkSocket true id false]> (sockets st)) st) ;;
  modify (λ st, set_connections (<[id := h]> (connections st)) st).

(** [server.on('request', function (req, res) {...})] with
    [req.socket] the object [h]. *)
Definition on_request (h : nat) : M unit :=
  modify (λ st, set_sockets (alter (set_idle false) h (sockets st)) st).

(** [res.on('finish', function () {...})] *)
Definition on_finish (h : nat) : M unit :=
  modify (λ st, set_sockets (alter (set_idle true) h (sockets st)) st) ;;
  destroy h.

(** [socket.on('close', function () { delete connections[id]; })]: the
    [id] the closure captured is the one stored in the socket's
    [_connectionId], which is written once, in the same handler. *)
Definition on_socket_close (h : nat) : M unit :=
  socket <- socket_of h ;;
  delete_connection (_connectionId socket).

(** [process.on(signal, function () { shutdown(signal); })], once per
    listener registered for that signal. *)
Fixpoint on_signal (o : Options) (listeners : list string) (sig : string) : M unit :=
  match listeners with
  | [] => ret tt
  | signal :: rest =>
      (if decide (signal = sig) then shutdown o signal else ret tt) ;;
      on_signal o rest sig
  end.

(** The callback given to [server.close]. *)
Definition on_listener_closed (o : Options) : M unit :=
  modify (λ st, set_closeCallbacks (pred (closeCallbacks st)) st) ;;
  handleCallbackThenExit o.

(** The callback given to [setTimeout]. *)
Definition on_timeout (o : Options) : M unit :=
  modify (λ st, set_timers (pred (timers st)) st) ;;
  debug (DbgTimeout (timeout o)) ;;
  handleCallbackThenExit o.

(** The two handlers given to [maybePromise.then]: [None] is
    fulfilment, [Some err] rejection with reason [err]. *)
Definition on_settled (outcome : option string) : M unit :=
  modify (λ st, set_thenHandlers (pred (thenHandlers st)) st) ;;
  exit outcome.

(** ** The runtime *)

Inductive Event :=
| EvConnection (h : nat)              (* 'connection' on the server, new socket h *)
| EvRequest (h : nat)                 (* 'request' on the server, req.socket = h *)
| EvFinish (h : nat)                  (* 'finish' on a response written to h *)
| EvSocketClose (h : nat)             (* 'close' on socket h *)
| EvSignal (sig : string)             (* the process receives sig *)
| EvListenerClosed                    (* the listener reports closed *)
| EvTimeout                           (* a timer armed by shutdown fires *)
| EvSettled (outcome : option string). (* a promise the callback returned settles *)

(** Whether the runtime can deliver the event at all: a socket emits
    'connection' once, requests and responses belong to sockets that
    exist, and a callback runs only if it was registered. *)
Definition enabled (ev : Event) (st : State) : bool :=
  match ev with
  | EvConnection h => bool_decide (sockets st !! h = None)
  | EvRequest h | EvFinish h | EvSocketClose h => bool_decide (is_Some (sockets st !! h))
  | EvSignal _ => true
  | EvListenerClosed => bool_decide (0 < closeCallbacks st)
  | EvTimeout => bool_decide (0 < timers st)
  | EvSettled _ => bool_decide (0 < thenHandlers st)
  end.

Definition handler (o : Options) (ev : Event) : M unit :=
  match ev with
  | EvConnection h => on_connection h
  | EvRequest h => on_request h
  | EvFinish h => on_finish h
  | EvSocketClose h => on_socket_close h
  | EvSignal sig => on_signal o (subscribed o) sig
  | EvListenerClosed => on_listener_closed o
  | EvTimeout => on_timeout o
  | EvSettled outcome => on_settled outcome
  end.

(** State and effects of a computation, its result dropped. *)
Definition exec {A} (m : M A) (st : State) : State * list Effect :=
  match m st with (_, st', es) => (st', es) end.

(** One turn of the event loop.  Once the process has ended nothing
    runs any more. *)
Definition step (o : Options) (ev : Event) (st : State) : State * list Effect :=
  if alive st && enabled ev st then exec (handler o ev) st else (st, []).

Fixpoint run (o : Options) (evs : list Event) (st : State) : State * list Effect :=
  match evs with
  | [] => (st, [])
  | ev :: rest =>
      match step o ev st with
      | (st1, e1) =>
          match run o rest st1 with
          | (st2, e2) => (st2, e1 ++ e2)
          end
      end
  end.

(** ** Auxiliary notions used by the statements *)

(** Every registered id points at a socket object tagged with that id:
    what [on_connection] establishes when it writes
    [socket._connectionId = id; connections[id] = socket]. *)
Definition wf (st : State) : Prop :=
  map_Forall (λ id h, _connectionId <$> sockets st !! h = Some id) (connections st).

Global Instance wf_dec st : Decision (wf st).
Proof. unfold wf. apply _. Defined.

(** The connection registered under [id] is marked idle. *)
Definition idle_conn (st : State) (id : nat) : bool :=
  match connections st !! id with
  | Some h =>
      match sockets st !! h with
      | Some s => _isIdle s
      | None => false
      end
  | None => false
  end.

(** Among [keys], the ids of the idle connections, and their sockets. *)
Definition reaped_ids (st : State) (keys : list nat) : list nat :=
  filter (λ id, idle_conn st id = true) keys.

Definition reaped (st : State) (keys : list nat) : list nat :=
  omap (λ id, connections st !! id) (reaped_ids st keys).

(** The sockets destroyed by a sweep of the whole registry. *)
Definition swept (st : State) : list nat :=
  reaped st (Object_keys (connections st)).

(** The state a drain leaves behind. *)
Definition drained (st : State) : State :=
  mkState true
    (foldl (λ m id, delete id m) (connections st)
       (reaped_ids st (Object_keys (connections st))))
    (connectionCounter st)
    (foldl (λ m h, alter set_destroyed h m) (sockets st) (swept st))
    (S (closeCallbacks st)) (S (timers st)) (thenHandlers st) (callbackCalls st)
    (status st).

(** The three steps of the drain sequence as effects: closing the
    listener, destroying a socket, arming the timer. *)
Definition is_drain_step (e : Effect) : bool :=
  match e with
  | EServerClose | ESocketDestroy _ | ESetTimeout _ => true
  | _ => false
  end.

Definition drain_steps (es : list Effect) : list Effect :=
  filter (λ e, is_drain_step e = true) es.

(** Successive invocations of [shutdown], one per trigger. *)
Fixpoint shutdowns (o : Options) (sigs : list string) : M unit :=
  match sigs with
  | [] => ret tt
  | sig :: rest => shutdown o sig ;; shutdowns o rest
  end.

Definition is_exit (e : Effect) : bool :=
  match e with EProcessExit _ => true | _ => false end.

(** The calls to [process.exit] among the effects. *)
Definition exits (es : list Effect) : list Effect :=
  filter (λ e, is_exit e = true) es.

(** What every piece of the shutdown path guarantees about one run of
    it, from state [st] to state [st'] with effects [es]. *)
Record quiet (st st' : State) (es : list Effect) : Prop := mkQuiet {
  q_flag : isShuttingDown st = true → isShuttingDown st' = true;
  q_idle : ∀ h, _isIdle <$> sockets st' !! h = _isIdle <$> sockets st !! h;
  q_busy : ∀ h s, sockets st !! h = Some s → _isIdle s = false →
                  sockets st' !! h = Some s;
  q_destroy : ∀ h, ESocketDestroy h ∈ es →
                   isShuttingDown st' = true ∧ _isIdle <$> sockets st !! h = Some true;
  q_wf : wf st → wf st';
  q_exit : if alive st' then exits es = []
           else (status st' = Crashed ∧ exits es = []) ∨
                (status st' = Exited 1 ∧ exits es = [EProcessExit 1])
}.

(** A computation started in a live process satisfies [R], and it
    returns exactly when the process is still alive afterwards. *)
Definition sat {A} (R : State → State → list Effect → Prop) (m : M A) : Prop :=
  ∀ st, alive st = true →
    match m st with
    | (r, st', es) => R st st' es ∧ (alive st' = true ↔ is_Some r)
    end.

(** The handlers of the shutdown path. *)
Definition shutdown_event (ev : Event) : bool :=
  match ev with
  | EvSignal _ | EvListenerClosed | EvTimeout | EvSettled _ => true
  | _ => false
  end.

(** What one turn of the event loop guarantees, whatever the event. *)
Record step_inv (st st' : State) (es : list Effect) : Prop := mkStepInv {
  s_flag : isShuttingDown st = true → isShuttingDown st' = true;
  s_destroy : ∀ h, ESocketDestroy h ∈ es →
                   isShuttingDown st' = true ∧ _isIdle <$> sockets st' !! h = Some true;
  s_wf : wf st → wf st';
  s_exit : if alive st' then exits es = []
           else (status st' = Crashed ∧ exits es = []) ∨
                (status st' = Exited 1 ∧ exits es = [EProcessExit 1])
}.

(** ** Further notions: the registry, the signals, the life of the process *)

(** The handlers that lead to finalization. *)
Definition finalizer_event (ev : Event) : bool :=
  match ev with
  | EvListenerClosed | EvTimeout | EvSettled _ => true
  | _ => false
  end.

(** An event that triggers nothing: anything but a signal the library
    has a listener for. *)
Definition no_trigger (o : Options) (ev : Event) : Prop :=
  match ev with
  | EvSignal sig => sig ∉ subscribed o
  | _ => True
  end.

(** The character [c] occurs in [s]. *)
Fixpoint occurs (c : ascii) (s : string) : bool :=
  match s with
  | EmptyString => false
  | String c' s' => if decide (c' = c) then true else occurs c s'
  end.

(** A signal name as the caller means it: not empty, no blank inside. *)
Definition signal_name (w : string) : Prop :=
  w ≠ EmptyString ∧ occurs " "%char w = false.

(** What the registry and the heap of sockets look like in every state
    the library can reach. *)
Record registry_inv (st : State) : Prop := mkRegistryInv {
  r_live : ∀ id h, connections st !! id = Some h →
             ∃ s, sockets st !! h = Some s ∧ _connectionId s = id ∧ destroyed s = false;
  r_fresh : ∀ id, is_Some (connections st !! id) → id < connectionCounter st;
  r_tagged : ∀ h s, sockets st !! h = Some s → _connectionId s < connectionCounter st;
  r_unique : ∀ h1 h2 s1 s2, sockets st !! h1 = Some s1 → sockets st !! h2 = Some s2 →
               _connectionId s1 = _connectionId s2 → h1 = h2;
  r_count : connectionCounter st = size (sockets st);
  r_status : status st ≠ Crashed
}.


(** A process that no trigger has reached yet: alive, flag down, no
    callback of the library waiting in the runtime. *)
Definition untriggered (st : State) : Prop :=
  alive st = true ∧ isShuttingDown st = false ∧
  closeCallbacks st = 0 ∧ timers st = 0 ∧ thenHandlers st = 0.

(** Every effect of the computation satisfies [P], from any state. *)
Definition emits {A} (P : Effect → Prop) (m : M A) : Prop :=
  ∀ st, Forall P (m st).2.

(** The effect is not the log line of [exit], ["closed", err]. *)
Definition not_closed_log (e : Effect) : Prop :=
  ∀ err, e ≠ EDebug (DbgClosed err).

Global Instance Event_eq_dec : EqDecision Event.
Proof. solve_decision. Defined.

(** ** Requests in flight *)

(** How one event changes the number of requests in flight on socket
    [h]: a request on it adds one, the finish of a response on it takes
    one away. *)
Definition in_flight_after (h : nat) (n : nat) (ev : Event) : nat :=
  match ev with
  | EvRequest h' => if decide (h' = h) then S n else n
  | EvFinish h' => if decide (h' = h) then pred n else n
  | _ => n
  end.

(** The requests started on socket [h] whose response has not finished,
    after the events [past] (oldest first). *)
Definition pending_responses (h : nat) (past : list Event) : nat :=
  foldl (in_flight_after h) 0 past.

(** Socket [h] has had its 'connection' event. *)
Definition announced (h : nat) (past : list Event) : bool :=
  bool_decide (EvConnection h ∈ past).

(** What a server that handles one request at a time per socket delivers
    next: a socket is announced once, a request starts on an announced
    socket with nothing in flight, a response finishes where one is in
    flight. *)
Definition admissible (past : list Event) (ev : Event) : bool :=
  match ev with
  | EvConnection h => negb (announced h past)
  | EvRequest h => announced h past && bool_decide (pending_responses h past = 0)
  | EvFinish h => bool_decide (pending_responses h past = 1)
  | _ => true
  end.

Fixpoint serial_from (past evs : list Event) : bool :=
  match evs with
  | [] => true
  | ev :: rest => admissible past ev && serial_from (past ++ [ev]) rest
  end.

(** A history in which requests on one socket never overlap. *)
Definition serial (evs : list Event) : bool := serial_from [] evs.

(** In a live process after the history [past]: the heap holds the
    announced sockets, and a socket is marked busy exactly while one
    request is in flight on it. *)
Record history_inv (past : list Event) (st : State) : Prop := mkHistoryInv {
  h_announced : ∀ h, announced h past = true ↔ is_Some (sockets st !! h);
  h_pending : ∀ h s, sockets st !! h = Some s →
                pending_responses h past = if _isIdle s then 0 else 1;
  h_quiet : ∀ h, announced h past = false → pending_responses h past = 0
}.

(** ** Registering the listeners *)

(** [process.on(signal, ...)] throws for the two signals no process can
    handle. *)
Definition uncatchable (signal : string) : bool :=
  bool_decide (signal = "SIGKILL") || bool_decide (signal = "SIGSTOP").

(** The [forEach] over the names: the listeners installed, in order, and
    whether [process.on] threw, which ends the [forEach] and
    [GracefulShutdown] with it. *)
Fixpoint register_listeners (names : list string) : list string * bool :=
  match names with
  | [] => ([], false)
  | signal :: rest =>
      if uncatchable signal then ([], true)
      else match register_listeners rest with
           | (installed, threw) => (signal :: installed, threw)
           end
  end.

(** ** Properties of the embedding *)

(** *** The registry and the sweep *)

Lemma filter_ext_elem {A} (P Q : A → Prop) `{∀ x, Decision (P x)} `{∀ x, Decision (Q x)}
    (l : list A) :
  (∀ x, x ∈ l → (P x ↔ Q x)) → filter P l = filter Q l.
Proof.
  induction l as [|a l IH]; intros Hext; [done|].
  rewrite !filter_cons.
  assert (P a ↔ Q a) as Ha by (apply Hext; left).
  rewrite IH by (intros x Hx; apply Hext; by right).
  destruct (decide (P a)), (decide (Q a)); tauto.
Qed.

Lemma wf_lookup st id h :
  wf st → connections st !! id = Some h →
  ∃ s, sockets st !! h = Some s ∧ _connectionId s = id.
Proof.
  intros Hwf Hid. specialize (Hwf id h Hid). simpl in Hwf.
  destruct (sockets st !! h) as [s|]; [|done].
  exists s. split; [done|]. by inversion Hwf.
Qed.

(** [destroy] in closed form. *)
Lemma destroy_eq h st :
  destroy h st =
  match sockets st !! h with
  | None => (None, set_status Crashed st, [])
  | Some s =>
      if _isIdle s && isShuttingDown st then
        (Some tt,
         set_connections (delete (_connectionId s) (connections st))
           (set_sockets (alter set_destroyed h (sockets st)) st),
         [ESocketDestroy h])
      else (Some tt, st, [])
  end.
Proof.
  unfold destroy, bind, socket_of, gets, throw_TypeError.
  destruct (sockets st !! h) as [s|]; [|done].
  destruct (_isIdle s && isShuttingDown st); reflexivity.
Qed.

Lemma wf_destroyed st h id :
  wf st →
  wf (set_connections (delete id (connections st))
        (set_sockets (alter set_destroyed h (sockets st)) st)).
Proof.
  intros Hwf id' h' Hid'. simpl in *.
  apply lookup_delete_Some in Hid' as [_ Hid'].
  specialize (Hwf id' h' Hid'). simpl in Hwf.
  rewrite lookup_alter. case_decide; [subst|done].
  destruct (sockets st !! h'); simpl in *; [|done]. done.
Qed.

Lemma idle_conn_destroyed st h id id' :
  id' ≠ id →
  idle_conn (set_connections (delete id (connections st))
        (set_sockets (alter set_destroyed h (sockets st)) st)) id' = idle_conn st id'.
Proof.
  intros Hne. unfold idle_conn. simpl.
  rewrite lookup_delete_ne by done.
  destruct (connections st !! id') as [h'|]; [|done].
  rewrite lookup_alter. case_decide; [subst|done].
  by destruct (sockets st !! h').
Qed.

Lemma omap_ext_elem {A B} (f g : A → option B) (l : list A) :
  (∀ x, x ∈ l → f x = g x) → omap f l = omap g l.
Proof.
  induction l as [|a l IH]; intros Hext; [done|].
  cbn [omap list_omap]. rewrite (Hext a) by left.
  rewrite IH by (intros x Hx; apply Hext; by right). done.
Qed.

Lemma sweep_draining keys : ∀ c st,
  wf st → isShuttingDown st = true → NoDup keys →
  (∀ k, k ∈ keys → is_Some (connections st !! k)) →
  sweep keys c st =
  (Some (length keys + c),
   set_connections (foldl (λ m id, delete id m) (connections st) (reaped_ids st keys))
     (set_sockets (foldl (λ m h, alter set_destroyed h m) (sockets st) (reaped st keys)) st),
   ESocketDestroy <$> reaped st keys).
Proof.
  induction keys as [|k keys IH]; intros c st Hwf Hflag Hnd Hdom.
  - by destruct st.
  - apply NoDup_cons in Hnd as [Hk Hnd].
    destruct (Hdom k) as [h Hh]; [left|].
    destruct (wf_lookup _ _ _ Hwf Hh) as (s & Hs & Hid).
    cbn [sweep]. unfold bind at 1, gets at 1. rewrite Hh.
    unfold bind at 1. rewrite destroy_eq, Hs, Hflag, andb_true_r.
    assert (idle_conn st k = _isIdle s) as Hidle
      by (unfold idle_conn; by rewrite Hh, Hs).
    unfold reaped, reaped_ids. rewrite filter_cons, Hidle.
    destruct (_isIdle s) eqn:Hi.
    + rewrite decide_True by done. rewrite Hid.
      set (st1 := set_connections _ _).
      assert (reaped_ids st1 keys = reaped_ids st keys) as Hids.
      { apply filter_ext_elem. intros id Hin. unfold st1.
        rewrite idle_conn_destroyed; [done|]. intros ->. done. }
      assert (reaped st1 keys = reaped st keys) as Hr.
      { unfold reaped. rewrite Hids. apply omap_ext_elem.
        intros id Hin. apply list_elem_of_filter in Hin as [_ Hin].
        unfold st1. simpl. apply lookup_delete_ne. intros ->. done. }
      rewrite (IH (S c) st1).
      * rewrite Hr, Hids. unfold reaped, reaped_ids, st1.
        cbn [omap list_omap]. rewrite Hh. destruct st. unfold set_connections, set_sockets. simpl.
        by replace (length keys + S c) with (S (length keys + c)) by lia.
      * apply wf_destroyed, Hwf.
      * done.
      * done.
      * intros k' Hk'. unfold st1. simpl. rewrite lookup_delete_ne by (intros ->; done).
        apply Hdom. by right.
    + rewrite decide_False by done.
      rewrite (IH (S c) st) by (try done; intros; apply Hdom; by right).
      unfold reaped, reaped_ids. simpl.
      by replace (length keys + S c) with (S (length keys + c)) by lia.
Qed.

(** *** The shutdown path keeps quiet *)

Lemma quiet_refl st : alive st = true → quiet st st [].
Proof.
  intros Ha. split; try done.
  - intros h Hh. by apply elem_of_nil in Hh.
  - by rewrite Ha.
Qed.

Lemma exits_app es1 es2 : exits (es1 ++ es2) = exits es1 ++ exits es2.
Proof. apply filter_app. Qed.

Lemma quiet_trans st st1 st2 e1 e2 :
  alive st1 = true → quiet st st1 e1 → quiet st1 st2 e2 → quiet st st2 (e1 ++ e2).
Proof.
  intros Ha [F1 I1 B1 D1 W1 X1] [F2 I2 B2 D2 W2 X2]. split.
  - auto.
  - intros h. by rewrite I2, I1.
  - eauto.
  - intros h [Hh|Hh]%elem_of_app.
    + destruct (D1 h Hh). auto.
    + destruct (D2 h Hh). rewrite <- I1. auto.
  - auto.
  - rewrite Ha in X1. rewrite exits_app, X1. done.
Qed.

Section Sat.
Context {A B : Type}.

Lemma sat_bind (m : M A) (f : A → M B) :
  sat quiet m → (∀ a, sat quiet (f a)) → sat quiet (bind m f).
Proof.
  intros Hm Hf st Ha. unfold bind.
  specialize (Hm st Ha). destruct (m st) as [[[a|] st1] e1].
  - destruct Hm as [Hq Hr].
    assert (alive st1 = true) as Ha1 by (apply Hr; eauto).
    specialize (Hf a st1 Ha1). destruct (f a st1) as [[r st2] e2].
    destruct Hf as [Hq2 Hr2]. split; [|done].
    by eapply quiet_trans.
  - destruct Hm as [Hq Hr]. split; [done|].
    split; [intros ?%Hr|intros ?]; by apply is_Some_None in H.
Qed.

Lemma sat_ret (a : A) : sat quiet (ret a).
Proof. intros st Ha. simpl. split; [by apply quiet_refl|]. split; eauto. Qed.

Lemma sat_gets (f : State → A) : sat quiet (gets f).
Proof. intros st Ha. simpl. split; [by apply quiet_refl|]. split; eauto. Qed.

End Sat.

(** Effects that are neither a destroy nor an exit, next to a change of
    the state that leaves sockets, registry, flag and status alone. *)
Ltac absent_effect :=
  let h := fresh "h" in
  let Hh := fresh "Hh" in
  intros h Hh;
  repeat (apply elem_of_cons in Hh as [Hh|Hh]; [discriminate|]);
  by apply elem_of_nil in Hh.

Lemma sat_debug m : sat quiet (debug m).
Proof.
  intros st Ha. unfold debug, emit.
  split; [split; try done; [absent_effect|by rewrite Ha]|split; eauto].
Qed.

Lemma sat_server_close : sat quiet server_close.
Proof.
  intros st Ha. unfold server_close, bind, modify, emit. simpl.
  split; [split; try done; [absent_effect|]|split; eauto].
  unfold alive in *. simpl. by destruct (status st).
Qed.

Lemma sat_setTimeout_unref ms : sat quiet (setTimeout_unref ms).
Proof.
  intros st Ha. unfold setTimeout_unref, bind, modify, emit. simpl.
  split; [split; try done; [absent_effect|]|split; eauto].
  unfold alive in *. simpl. by destruct (status st).
Qed.

Lemma sat_set_isShuttingDown : sat quiet (modify (set_isShuttingDown true)).
Proof.
  intros st Ha. unfold modify. simpl.
  split; [split; try done; [absent_effect|]|split; eauto].
  unfold alive in *. simpl. by destruct (status st).
Qed.

Lemma sat_exit err : sat quiet (exit err).
Proof.
  intros st Ha. unfold exit, bind, process_exit. simpl.
  split; [split; try done|].
  - absent_effect.
  - right. done.
  - split; [done|]. intros []. done.
Qed.

Lemma handleCallbackThenExit_eq o st :
  handleCallbackThenExit o st =
  match callback o with
  | None => (None, set_status (Exited 1) st, [EProcessExit 1])
  | Some cb =>
      match cb (callbackCalls st) with
      | NotThenable =>
          (None, set_status (Exited 1) (set_callbackCalls (S (callbackCalls st)) st),
           [ECallback; EProcessExit 1])
      | Thenable =>
          (Some tt,
           set_thenHandlers (S (thenHandlers st))
             (set_callbackCalls (S (callbackCalls st)) st),
           [ECallback])
      end
  end.
Proof.
  unfold handleCallbackThenExit.
  destruct (callback o) as [cb|]; [|done].
  unfold bind, call_callback.
  by destruct (cb (callbackCalls st)).
Qed.

Lemma sat_handleCallbackThenExit o : sat quiet (handleCallbackThenExit o).
Proof.
  intros st Ha. rewrite handleCallbackThenExit_eq.
  destruct (callback o) as [cb|].
  - destruct (cb (callbackCalls st)).
    + split; [split; try done|].
      * absent_effect.
      * right. done.
      * split; [done|]. intros []. done.
    + split; [split; try done; [absent_effect|]|split; eauto].
      unfold alive in *. simpl. by destruct (status st).
  - split; [split; try done|].
    + absent_effect.
    + right. done.
    + split; [done|]. intros []. done.
Qed.

Lemma sat_destroy h : sat quiet (destroy h).
Proof.
  intros st Ha. rewrite destroy_eq.
  destruct (sockets st !! h) as [s|] eqn:Hs.
  - destruct (_isIdle s) eqn:Hi, (isShuttingDown st) eqn:Hf; simpl;
      try (split; [by apply quiet_refl|split; eauto]).
    split; [split; simpl; try done|split; eauto].
    + intros h'. rewrite lookup_alter. case_decide; [subst|done].
      by destruct (sockets st !! h').
    + intros h' s' Hs' Hb. rewrite lookup_alter_ne; [done|].
      intros ->. congruence.
    + intros h' Hh. apply list_elem_of_singleton in Hh. inversion Hh; subst.
      split; [done|]. rewrite Hs. simpl. by rewrite Hi.
    + apply wf_destroyed.
    + unfold alive in *. simpl. by destruct (status st).
  - split; [split; try done|].
    + absent_effect.
    + left. done.
    + split; [done|]. intros []. done.
Qed.

Lemma sat_throw_TypeError {A} : sat quiet (@throw_TypeError A).
Proof.
  intros st Ha. unfold throw_TypeError.
  split; [split; try done|].
  - absent_effect.
  - left. done.
  - split; [done|]. intros []. done.
Qed.

Lemma sat_sweep keys : ∀ c, sat quiet (sweep keys c).
Proof.
  induction keys as [|k keys IH]; intros c; cbn [sweep].
  - apply sat_ret.
  - apply sat_bind; [apply sat_gets|]. intros [h|].
    + apply sat_bind; [apply sat_destroy|]. intros _. apply IH.
    + apply sat_throw_TypeError.
Qed.

Lemma sat_drain o : sat quiet (drain o).
Proof.
  unfold drain.
  apply sat_bind; [apply sat_set_isShuttingDown|]. intros _.
  apply sat_bind; [apply sat_debug|]. intros _.
  apply sat_bind; [apply sat_server_close|]. intros _.
  apply sat_bind; [apply sat_gets|]. intros keys.
  apply sat_bind; [apply sat_sweep|]. intros counter.
  apply sat_bind; [apply sat_debug|]. intros _.
  apply sat_bind; [apply sat_gets|]. intros cc.
  apply sat_bind; [apply sat_debug|]. intros _.
  apply sat_setTimeout_unref.
Qed.

Lemma sat_shutdown o sig : sat quiet (shutdown o sig).
Proof.
  unfold shutdown.
  apply sat_bind; [apply sat_debug|]. intros _.
  apply sat_bind.
  { destruct (development o); [|apply sat_ret].
    apply sat_bind; [apply sat_debug|]. intros _. apply sat_handleCallbackThenExit. }
  intros _. apply sat_bind; [apply sat_gets|].
  intros [|]; simpl; [apply sat_ret|apply sat_drain].
Qed.

Lemma sat_on_signal o sig listeners : sat quiet (on_signal o listeners sig).
Proof.
  induction listeners as [|signal rest IH]; cbn [on_signal]; [apply sat_ret|].
  apply sat_bind; [|intros _; apply IH].
  case_decide; [apply sat_shutdown|apply sat_ret].
Qed.

Lemma sat_pending (f : State → State) :
  (∀ st, isShuttingDown (f st) = isShuttingDown st) →
  (∀ st, connections (f st) = connections st) →
  (∀ st, sockets (f st) = sockets st) →
  (∀ st, status (f st) = status st) →
  sat quiet (modify f).
Proof.
  intros Hf Hc Hs Hst st Ha. unfold modify.
  split; [split|split; eauto].
  - by rewrite Hf.
  - intros h. by rewrite Hs.
  - intros h s. by rewrite Hs.
  - absent_effect.
  - unfold wf. by rewrite Hc, Hs.
  - unfold alive in *. rewrite Hst. by destruct (status st).
  - unfold alive in *. by rewrite Hst.
Qed.

Lemma sat_on_listener_closed o : sat quiet (on_listener_closed o).
Proof.
  apply sat_bind; [by apply sat_pending|]. intros _.
  apply sat_handleCallbackThenExit.
Qed.

Lemma sat_on_timeout o : sat quiet (on_timeout o).
Proof.
  apply sat_bind; [by apply sat_pending|]. intros _.
  apply sat_bind; [apply sat_debug|]. intros _.
  apply sat_handleCallbackThenExit.
Qed.

Lemma sat_on_settled outcome : sat quiet (on_settled outcome).
Proof.
  apply sat_bind; [by apply sat_pending|]. intros _. apply sat_exit.
Qed.

(** *** [Object.keys] *)

Lemma Object_keys_perm (m : gmap nat nat) : Object_keys m ≡ₚ elements (dom m).
Proof. apply merge_sort_Permutation. Qed.

Lemma Object_keys_NoDup (m : gmap nat nat) : NoDup (Object_keys m).
Proof. rewrite Object_keys_perm. apply NoDup_elements. Qed.

Lemma elem_of_Object_keys (m : gmap nat nat) k :
  k ∈ Object_keys m ↔ is_Some (m !! k).
Proof. by rewrite Object_keys_perm, elem_of_elements, elem_of_dom. Qed.

Lemma length_Object_keys (m : gmap nat nat) : length (Object_keys m) = size m.
Proof. by rewrite Object_keys_perm, <- size_dom. Qed.

(** *** Lookups after a sweep *)

Ltac cons_cases :=
  repeat match goal with
    | H : _ ∈ _ :: _ |- _ => apply elem_of_cons in H as [H|H]
    | H : _ ∉ _ :: _ |- _ => apply not_elem_of_cons in H as [? ?]
    end;
  done.

Lemma lookup_foldl_delete (ids : list nat) : ∀ (m : gmap nat nat) k,
  foldl (λ m id, delete id m) m ids !! k = if decide (k ∈ ids) then None else m !! k.
Proof.
  induction ids as [|a ids IH]; intros m k; cbn [foldl].
  - case_decide as H; [by apply elem_of_nil in H|done].
  - rewrite IH. destruct (decide (k = a)) as [->|Hne].
    + rewrite lookup_delete_eq.
      destruct (decide (a ∈ ids)), (decide (a ∈ a :: ids)); try done; cons_cases.
    + rewrite lookup_delete_ne by done.
      destruct (decide (k ∈ ids)), (decide (k ∈ a :: ids)); try done; cons_cases.
Qed.

Lemma lookup_foldl_destroyed (hs : list nat) : ∀ (m : gmap nat Socket) h,
  foldl (λ m h, alter set_destroyed h m) m hs !! h =
  if decide (h ∈ hs) then set_destroyed <$> m !! h else m !! h.
Proof.
  induction hs as [|a hs IH]; intros m h; cbn [foldl].
  - case_decide as H; [by apply elem_of_nil in H|done].
  - rewrite IH. destruct (decide (h = a)) as [->|Hne].
    + rewrite lookup_alter_eq.
      destruct (decide (a ∈ hs)), (decide (a ∈ a :: hs));
        try done; try cons_cases.
      by destruct (m !! a).
    + rewrite lookup_alter_ne by done.
      destruct (decide (h ∈ hs)), (decide (h ∈ a :: hs)); try done; cons_cases.
Qed.

Lemma elem_of_reaped_ids st keys id :
  id ∈ reaped_ids st keys ↔ id ∈ keys ∧ idle_conn st id = true.
Proof. unfold reaped_ids. rewrite list_elem_of_filter. tauto. Qed.

Lemma elem_of_reaped st keys h :
  h ∈ reaped st keys ↔
  ∃ id, id ∈ keys ∧ idle_conn st id = true ∧ connections st !! id = Some h.
Proof.
  unfold reaped. rewrite list_elem_of_omap. split.
  - intros (id & [? ?]%elem_of_reaped_ids & ?). eauto.
  - intros (id & ? & ? & ?). exists id. by rewrite elem_of_reaped_ids.
Qed.

(** With the flag down a sweep changes nothing. *)
Lemma sweep_not_draining keys : ∀ c st,
  wf st → isShuttingDown st = false →
  (∀ k, k ∈ keys → is_Some (connections st !! k)) →
  sweep keys c st = (Some (length keys + c), st, []).
Proof.
  induction keys as [|k keys IH]; intros c st Hwf Hflag Hdom; [done|].
  destruct (Hdom k) as [h Hh]; [left|].
  destruct (wf_lookup _ _ _ Hwf Hh) as (s & Hs & Hid).
  cbn [sweep]. unfold bind at 1, gets at 1. rewrite Hh.
  unfold bind at 1. rewrite destroy_eq, Hs, Hflag, andb_false_r.
  rewrite (IH (S c) st) by (try done; intros; apply Hdom; by right).
  simpl. by replace (length keys + S c) with (S (length keys + c)) by lia.
Qed.

Lemma drain_eq o st :
  wf st →
  drain o st =
  (Some tt, drained st,
   [EDebug DbgShuttingDown; EServerClose] ++
   (ESocketDestroy <$> swept st) ++
   [EDebug (DbgDestroyed (size (connections st)));
    EDebug (DbgCounter (connectionCounter st));
    ESetTimeout (timeout o)]).
Proof.
  intros Hwf. unfold drain.
  unfold bind at 1, modify at 1. unfold bind at 1, debug at 1, emit at 1.
  unfold bind at 1, server_close at 1, bind at 1, modify at 1, emit at 1.
  unfold bind at 1, gets at 1. unfold bind at 1. cbn [connections set_closeCallbacks set_isShuttingDown].
  rewrite sweep_draining.
  - unfold bind, debug, emit, gets, setTimeout_unref, modify, bind.
    rewrite length_Object_keys, Nat.add_0_r. reflexivity.
  - done.
  - done.
  - apply Object_keys_NoDup.
  - intros k. by rewrite elem_of_Object_keys.
Qed.

(** *** The event loop *)

Lemma step_dead o ev st : alive st = false → step o ev st = (st, []).
Proof. intros Ha. unfold step. by rewrite Ha. Qed.

Lemma run_dead o evs : ∀ st, alive st = false → run o evs st = (st, []).
Proof.
  induction evs as [|ev evs IH]; intros st Ha; [done|].
  cbn [run]. rewrite step_dead by done. by rewrite IH.
Qed.

Lemma run_cons o ev evs st :
  run o (ev :: evs) st =
  ((run o evs (step o ev st).1).1, (step o ev st).2 ++ (run o evs (step o ev st).1).2).
Proof.
  cbn [run]. destruct (step o ev st) as [st1 e1]. simpl.
  by destruct (run o evs st1).
Qed.

Lemma sat_exec {A} (m : M A) st :
  sat quiet m → alive st = true → quiet st (exec m st).1 (exec m st).2.
Proof.
  intros Hm Ha. specialize (Hm st Ha). unfold exec.
  destruct (m st) as [[r st'] es]. by destruct Hm.
Qed.

Lemma sat_handler o ev : shutdown_event ev = true → sat quiet (handler o ev).
Proof.
  destruct ev; try done; intros _; simpl.
  - apply sat_on_signal.
  - apply sat_on_listener_closed.
  - apply sat_on_timeout.
  - apply sat_on_settled.
Qed.

Lemma step_quiet o ev st :
  shutdown_event ev = true → alive st = true →
  quiet st (step o ev st).1 (step o ev st).2.
Proof.
  intros Hev Ha. unfold step. rewrite Ha. simpl.
  destruct (enabled ev st); [|by apply quiet_refl].
  by apply sat_exec; [apply sat_handler|].
Qed.

(** The four handlers that keep the registry, in closed form. *)
Lemma step_connection o h st :
  alive st = true → sockets st !! h = None →
  step o (EvConnection h) st =
  (set_connections (<[connectionCounter st := h]> (connections st))
     (set_sockets (<[h := mkSocket true (connectionCounter st) false]> (sockets st))
        (set_connectionCounter (S (connectionCounter st)) st)), []).
Proof.
  intros Ha Hh. unfold step. rewrite Ha. simpl.
  by rewrite bool_decide_eq_true_2.
Qed.

Lemma step_request o h st :
  alive st = true → is_Some (sockets st !! h) →
  step o (EvRequest h) st =
  (set_sockets (alter (set_idle false) h (sockets st)) st, []).
Proof.
  intros Ha Hh. unfold step. rewrite Ha. simpl.
  by rewrite bool_decide_eq_true_2.
Qed.

Lemma step_finish o h s st :
  alive st = true → sockets st !! h = Some s →
  step o (EvFinish h) st =
  if isShuttingDown st then
    (set_connections (delete (_connectionId s) (connections st))
       (set_sockets (<[h := mkSocket true (_connectionId s) true]> (sockets st)) st),
     [ESocketDestroy h])
  else (set_sockets (<[h := set_idle true s]> (sockets st)) st, []).
Proof.
  intros Ha Hh. unfold step. rewrite Ha. simpl.
  rewrite bool_decide_eq_true_2 by eauto.
  unfold exec, on_finish, bind, modify. rewrite destroy_eq. simpl.
  rewrite lookup_alter_eq, Hh. simpl.
  assert (alter (set_idle true) h (sockets st) = <[h := set_idle true s]> (sockets st)) as ->.
  { apply map_eq. intros h'. rewrite lookup_alter, lookup_insert.
    case_decide; subst; by rewrite ?Hh. }
  destruct (isShuttingDown st); [|done].
  f_equal. unfold set_connections, set_sockets. simpl. f_equal.
  apply map_eq. intros h'. rewrite lookup_alter, !lookup_insert.
  destruct (decide (h = h')); [|done]. by rewrite decide_True.
Qed.

Lemma step_socket_close o h s st :
  alive st = true → sockets st !! h = Some s →
  step o (EvSocketClose h) st =
  (set_connections (delete (_connectionId s) (connections st)) st, []).
Proof.
  intros Ha Hh. unfold step. rewrite Ha. simpl.
  rewrite bool_decide_eq_true_2 by eauto.
  unfold exec, on_socket_close, bind, socket_of. by rewrite Hh.
Qed.

Lemma step_disabled o ev st : enabled ev st = false → step o ev st = (st, []).
Proof. intros He. unfold step. by rewrite He, andb_false_r. Qed.

(** *** Invariants of the event loop *)

Lemma wf_update st st' :
  (∀ id h, connections st' !! id = Some h →
           connections st !! id = Some h ∧
           _connectionId <$> sockets st' !! h = _connectionId <$> sockets st !! h) →
  wf st → wf st'.
Proof.
  intros Hup Hwf id h Hid. destruct (Hup id h Hid) as [Hc Hs].
  simpl. rewrite Hs. by apply (Hwf id h).
Qed.

Lemma wf_connection st h :
  sockets st !! h = None → wf st →
  wf (set_connections (<[connectionCounter st := h]> (connections st))
        (set_sockets (<[h := mkSocket true (connectionCounter st) false]> (sockets st))
           (set_connectionCounter (S (connectionCounter st)) st))).
Proof.
  intros Hnew Hwf id h' Hid. simpl in *.
  apply lookup_insert_Some in Hid as [[<- <-]|[Hne Hid]].
  - by rewrite lookup_insert_eq.
  - destruct (wf_lookup _ _ _ Hwf Hid) as (s & Hs & <-).
    rewrite lookup_insert_ne by congruence. by rewrite Hs.
Qed.

Lemma step_inv_refl st : alive st = true → step_inv st st [].
Proof.
  intros Ha. split; try done.
  - intros h Hh. by apply elem_of_nil in Hh.
  - by rewrite Ha.
Qed.

Lemma step_inv_quiet st st' es : quiet st st' es → step_inv st st' es.
Proof.
  intros [F I B D W X]. split; try done.
  intros h Hh. destruct (D h Hh). by rewrite I.
Qed.

Lemma step_inv_step o ev st :
  alive st = true → step_inv st (step o ev st).1 (step o ev st).2.
Proof.
  intros Ha.
  destruct (shutdown_event ev) eqn:Hev; [by apply step_inv_quiet, step_quiet|].
  destruct (enabled ev st) eqn:Hen;
    [|rewrite step_disabled by done; by apply step_inv_refl].
  destruct ev as [h|h|h|h| | | |]; try done; simpl in Hen.
  - apply bool_decide_eq_true_1 in Hen. rewrite step_connection by done.
    split; simpl; try done.
    + intros h' Hh. by apply elem_of_nil in Hh.
    + by apply wf_connection.
    + unfold alive in *. simpl. by rewrite Ha.
  - apply bool_decide_eq_true_1 in Hen. rewrite step_request by done.
    split; simpl; try done.
    + intros h' Hh. by apply elem_of_nil in Hh.
    + apply wf_update. intros id h' Hid. simpl in *. split; [done|].
      rewrite lookup_alter. case_decide; [subst|done]. by destruct (sockets st !! h').
    + unfold alive in *. simpl. by rewrite Ha.
  - apply bool_decide_eq_true_1 in Hen as [s Hs]. rewrite (step_finish _ _ s) by done.
    destruct (isShuttingDown st) eqn:Hf; split; simpl; try done.
    + intros h' Hh. apply list_elem_of_singleton in Hh. inversion Hh; subst.
      by rewrite lookup_insert_eq.
    + apply wf_update. intros id h' Hid. simpl in *.
      apply lookup_delete_Some in Hid as [_ Hid]. split; [done|].
      rewrite lookup_insert. case_decide; [subst|done]. by rewrite Hs.
    + unfold alive in *. simpl. by rewrite Ha.
    + intros h' Hh. by apply elem_of_nil in Hh.
    + apply wf_update. intros id h' Hid. simpl in *. split; [done|].
      rewrite lookup_insert. case_decide; [subst|done]. by rewrite Hs.
    + unfold alive in *. simpl. by rewrite Ha.
  - apply bool_decide_eq_true_1 in Hen as [s Hs].
    rewrite (step_socket_close _ _ s) by done.
    split; simpl; try done.
    + intros h' Hh. by apply elem_of_nil in Hh.
    + apply wf_update. intros id h' Hid. simpl in *.
      by apply lookup_delete_Some in Hid as [_ Hid].
    + unfold alive in *. simpl. by rewrite Ha.
Qed.

Lemma run_flag o evs : ∀ st,
  isShuttingDown st = true → isShuttingDown (run o evs st).1 = true.
Proof.
  induction evs as [|ev evs IH]; intros st Hf; [done|].
  rewrite run_cons. simpl. apply IH.
  destruct (alive st) eqn:Ha; [|by rewrite step_dead].
  by apply (s_flag _ _ _ (step_inv_step o ev st Ha)).
Qed.

Lemma run_wf o evs : ∀ st, wf st → wf (run o evs st).1.
Proof.
  induction evs as [|ev evs IH]; intros st Hwf; [done|].
  rewrite run_cons. simpl. apply IH.
  destruct (alive st) eqn:Ha; [|by rewrite step_dead].
  by apply (s_wf _ _ _ (step_inv_step o ev st Ha)).
Qed.

Lemma run_exit o evs : ∀ st,
  alive st = true →
  if alive (run o evs st).1 then exits (run o evs st).2 = []
  else (status (run o evs st).1 = Crashed ∧ exits (run o evs st).2 = []) ∨
       (status (run o evs st).1 = Exited 1 ∧ exits (run o evs st).2 = [EProcessExit 1]).
Proof.
  induction evs as [|ev evs IH]; intros st Ha.
  - simpl. by rewrite Ha.
  - rewrite run_cons. simpl.
    pose proof (s_exit _ _ _ (step_inv_step o ev st Ha)) as Hx.
    destruct (alive (step o ev st).1) eqn:Ha1.
    + specialize (IH _ Ha1). rewrite exits_app, Hx. done.
    + rewrite run_dead by done. simpl. rewrite Ha1, app_nil_r. done.
Qed.

Lemma wf_initial : wf initial.
Proof. apply map_Forall_empty. Qed.

(** Every state the library can reach keeps the registry consistent. *)
Lemma wf_reachable o evs : wf (run o evs initial).1.
Proof. apply run_wf, wf_initial. Qed.

(** *** [shutdown] case by case *)

Create HintDb sat.
#[local] Hint Resolve sat_ret sat_gets sat_debug sat_server_close sat_setTimeout_unref
  sat_set_isShuttingDown sat_exit sat_handleCallbackThenExit sat_destroy
  sat_sweep sat_drain sat_shutdown : sat.

Lemma shutdown_cases o sig st :
  shutdown o sig st =
  if development o then
    match callback o with
    | None =>
        (None, set_status (Exited 1) st,
         [EDebug (DbgSignal sig); EDebug DbgDevMode; EProcessExit 1])
    | Some cb =>
        match cb (callbackCalls st) with
        | NotThenable =>
            (None, set_status (Exited 1) (set_callbackCalls (S (callbackCalls st)) st),
             [EDebug (DbgSignal sig); EDebug DbgDevMode; ECallback; EProcessExit 1])
        | Thenable =>
            let st1 := set_thenHandlers (S (thenHandlers st))
                         (set_callbackCalls (S (callbackCalls st)) st) in
            if isShuttingDown st then
              (Some tt, st1, [EDebug (DbgSignal sig); EDebug DbgDevMode; ECallback])
            else
              match drain o st1 with
              | (r, st2, e2) =>
                  (r, st2, [EDebug (DbgSignal sig); EDebug DbgDevMode; ECallback] ++ e2)
              end
        end
    end
  else if isShuttingDown st then (Some tt, st, [EDebug (DbgSignal sig)])
  else
    match drain o st with
    | (r, st2, e2) => (r, st2, EDebug (DbgSignal sig) :: e2)
    end.
Proof.
  unfold shutdown. unfold bind at 1, debug at 1, emit at 1. unfold bind at 1.
  destruct (development o).
  - unfold bind at 1, debug at 1, emit at 1. rewrite handleCallbackThenExit_eq.
    destruct (callback o) as [cb|]; [|done].
    destruct (cb (callbackCalls st)); [done|].
    unfold bind, gets. cbn [isShuttingDown set_thenHandlers set_callbackCalls].
    destruct (isShuttingDown st); [done|]. cbn [negb].
    by destruct (drain o _) as [[r st2] e2].
  - unfold ret at 1. unfold bind, gets.
    destruct (isShuttingDown st); [done|]. cbn [negb].
    by destruct (drain o st) as [[r st2] e2].
Qed.

(** Whatever becomes of the sweep, the block has raised the flag. *)
Lemma drain_sets_flag o st :
  alive st = true → isShuttingDown (drain o st).1.2 = true.
Proof.
  intros Ha. unfold drain. unfold bind at 1, modify at 1.
  set (tail := bind (debug DbgShuttingDown) _).
  assert (sat quiet tail) as Htail.
  { unfold tail. repeat first [solve [auto with sat] | apply sat_bind; [|intros ?]]. }
  assert (alive (set_isShuttingDown true st) = true) as Ha1 by done.
  specialize (Htail _ Ha1).
  destruct (tail (set_isShuttingDown true st)) as [[r st2] e2].
  destruct Htail as [Hq _]. simpl. by apply (q_flag _ _ _ Hq).
Qed.

(** A trigger that finds the flag up starts no drain step and leaves
    registry, sockets, pending close callbacks and timers as they are. *)
Lemma shutdown_when_draining o sig st :
  isShuttingDown st = true →
  drain_steps (shutdown o sig st).2 = [] ∧
  isShuttingDown (shutdown o sig st).1.2 = true ∧
  connections (shutdown o sig st).1.2 = connections st ∧
  sockets (shutdown o sig st).1.2 = sockets st ∧
  closeCallbacks (shutdown o sig st).1.2 = closeCallbacks st ∧
  timers (shutdown o sig st).1.2 = timers st.
Proof.
  intros Hf. rewrite shutdown_cases, Hf.
  destruct (development o); [|done].
  destruct (callback o) as [cb|]; [|done].
  by destruct (cb (callbackCalls st)).
Qed.

Lemma shutdowns_when_draining o sigs : ∀ st,
  isShuttingDown st = true →
  drain_steps (shutdowns o sigs st).2 = [] ∧
  isShuttingDown (shutdowns o sigs st).1.2 = true ∧
  connections (shutdowns o sigs st).1.2 = connections st ∧
  sockets (shutdowns o sigs st).1.2 = sockets st ∧
  closeCallbacks (shutdowns o sigs st).1.2 = closeCallbacks st ∧
  timers (shutdowns o sigs st).1.2 = timers st.
Proof.
  induction sigs as [|sig sigs IH]; intros st Hf; [done|].
  cbn [shutdowns]. unfold bind.
  destruct (shutdown_when_draining o sig st Hf) as (H1 & H2 & H3 & H4 & H5 & H6).
  destruct (shutdown o sig st) as [[[[]|] st1] e1]; simpl in *; [|done].
  destruct (IH st1 H2) as (I1 & I2 & I3 & I4 & I5 & I6).
  destruct (shutdowns o sigs st1) as [[r st2] e2]; simpl in *.
  unfold drain_steps in *. rewrite filter_app, H1, I1.
  repeat split; congruence.
Qed.

(** ** The claims *)

(** C9.  An option the caller leaves out takes its documented default:
    the signals are SIGINT and SIGTERM, the forced-shutdown timeout is
    30000 ms and development mode is off; this holds option by option,
    whatever the other options are, and when no options object is
    passed at all. *)
Theorem defaults_for_omitted_options
    (s : option string) (t : option Z) (d : option bool) (c : option Callback) :
  make_options None = mkOptions "SIGINT SIGTERM" 30000 false None ∧
  subscribed (make_options None) = ["SIGINT"; "SIGTERM"] ∧
  signals (make_options (Some (mkRaw None t d c))) = "SIGINT SIGTERM" ∧
  subscribed (make_options (Some (mkRaw None t d c))) = ["SIGINT"; "SIGTERM"] ∧
  timeout (make_options (Some (mkRaw s None d c))) = 30000%Z ∧
  development (make_options (Some (mkRaw s t None c))) = false.
Proof. repeat split. Qed.

(** C3.  Finalization ends the process with exit status 1 in each of
    the four cases: no callback, a callback that returns synchronously,
    a callback whose promise is fulfilled, a callback whose promise is
    rejected.  No run of the library ever exits with another status. *)
Theorem finalization_exits_with_status_1 (o : Options) (st : State) :
  alive st = true →
  (callback o = None →
     status (exec (handleCallbackThenExit o) st).1 = Exited 1) ∧
  (∀ cb, callback o = Some cb → cb (callbackCalls st) = NotThenable →
     status (exec (handleCallbackThenExit o) st).1 = Exited 1) ∧
  (∀ cb, callback o = Some cb → cb (callbackCalls st) = Thenable →
     alive (exec (handleCallbackThenExit o) st).1 = true ∧
     ∀ outcome,
       status (step o (EvSettled outcome) (exec (handleCallbackThenExit o) st).1).1
         = Exited 1 ∧
       (step o (EvSettled outcome) (exec (handleCallbackThenExit o) st).1).2
         = [EProcessExit 1]) ∧
  (∀ evs code, EProcessExit code ∈ (run o evs st).2 → code = 1%Z) ∧
  (∀ evs code, status (run o evs st).1 = Exited code → code = 1%Z).
Proof.
  intros Ha. unfold exec. rewrite handleCallbackThenExit_eq.
  split; [|split; [|split; [|split]]].
  - by intros ->.
  - by intros cb -> ->.
  - intros cb -> ->. simpl. split.
    + unfold alive in *. simpl. by rewrite Ha.
    + intros outcome. unfold step, alive in *. simpl. by rewrite Ha.
  - intros evs code Hin.
    assert (EProcessExit code ∈ exits (run o evs st).2) as Hx
      by (by apply list_elem_of_filter).
    pose proof (run_exit o evs st Ha) as Hr.
    destruct (alive (run o evs st).1).
    + rewrite Hr in Hx. by apply elem_of_nil in Hx.
    + destruct Hr as [[_ Hr]|[_ Hr]]; rewrite Hr in Hx.
      * by apply elem_of_nil in Hx.
      * apply list_elem_of_singleton in Hx. by inversion Hx.
  - intros evs code Hst. pose proof (run_exit o evs st Ha) as Hr.
    unfold alive in Hr. rewrite Hst in Hr.
    destruct Hr as [[Hr _]|[Hr _]]; congruence.
Qed.

Lemma finalization_exits_with_status_1_witness :
  alive initial = true ∧
  status (exec (handleCallbackThenExit (make_options None)) initial).1 = Exited 1.
Proof.
  split; [reflexivity|].
  apply (finalization_exits_with_status_1 (make_options None) initial); reflexivity.
Defined.

Lemma drain_steps_app es1 es2 :
  drain_steps (es1 ++ es2) = drain_steps es1 ++ drain_steps es2.
Proof. apply filter_app. Qed.

Lemma drain_steps_destroys hs :
  drain_steps (ESocketDestroy <$> hs) = ESocketDestroy <$> hs.
Proof.
  induction hs as [|h hs IH]; [done|].
  cbn [fmap list_fmap]. unfold drain_steps in *. rewrite filter_cons_True by done.
  by rewrite IH.
Qed.

Lemma drain_steps_of_drain o st :
  drain_steps
    ([EDebug DbgShuttingDown; EServerClose] ++
     (ESocketDestroy <$> swept st) ++
     [EDebug (DbgDestroyed (size (connections st)));
      EDebug (DbgCounter (connectionCounter st));
      ESetTimeout (timeout o)]) =
  EServerClose :: (ESocketDestroy <$> swept st) ++ [ESetTimeout (timeout o)].
Proof. by rewrite !drain_steps_app, drain_steps_destroys. Qed.

(** With graceful mode on, a trigger always returns to its caller. *)
Lemma graceful_shutdown_returns o sig st :
  wf st → development o = false → is_Some (shutdown o sig st).1.1.
Proof.
  intros Hwf Hdev. rewrite shutdown_cases, Hdev.
  destruct (isShuttingDown st); [by eexists|].
  rewrite drain_eq by done. by eexists.
Qed.

Lemma first_shutdown_drains o sig st :
  wf st → isShuttingDown st = false → is_Some (shutdown o sig st).1.1 →
  isShuttingDown (shutdown o sig st).1.2 = true ∧
  drain_steps (shutdown o sig st).2 =
    EServerClose :: (ESocketDestroy <$> swept st) ++ [ESetTimeout (timeout o)].
Proof.
  intros Hwf Hf. rewrite shutdown_cases, Hf.
  destruct (development o).
  - destruct (callback o) as [cb|]; [|by intros [? ?]].
    destruct (cb (callbackCalls st)); [by intros [? ?]|].
    cbv zeta. rewrite drain_eq by exact Hwf. intros _. split; [done|].
    cbn [fst snd]. rewrite drain_steps_app. apply (drain_steps_of_drain o st).
  - rewrite drain_eq by done. intros _. split; [done|].
    cbn [fst snd]. apply (drain_steps_of_drain o st).
Qed.

(** A signal runs [shutdown] once per listener registered for it. *)
Lemma on_signal_eq o sig listeners : ∀ st,
  on_signal o listeners sig st = shutdowns o (filter (λ s, s = sig) listeners) st.
Proof.
  induction listeners as [|signal rest IH]; intros st; [done|].
  cbn [on_signal]. rewrite filter_cons. unfold bind at 1.
  destruct (decide (signal = sig)) as [->|Hne].
  - cbn [shutdowns]. unfold bind.
    destruct (shutdown o sig st) as [[[[]|] st1] e1]; [|done]. by rewrite IH.
  - unfold ret at 1. rewrite IH.
    by destruct (shutdowns o _ st) as [[r st2] e2].
Qed.

(** Delivered through the event loop: in graceful mode the first
    subscribed signal runs the drain sequence once, however many
    listeners it has, and a signal that finds the flag up runs none of it. *)
Lemma signal_drains_once o sig st :
  wf st → alive st = true → isShuttingDown st = false →
  development o = false → sig ∈ subscribed o →
  isShuttingDown (step o (EvSignal sig) st).1 = true ∧
  drain_steps (step o (EvSignal sig) st).2 =
    EServerClose :: (ESocketDestroy <$> swept st) ++ [ESetTimeout (timeout o)].
Proof.
  intros Hwf Ha Hf Hdev Hin. unfold step. rewrite Ha. simpl. unfold exec.
  rewrite on_signal_eq.
  destruct (filter (λ s, s = sig) (subscribed o)) as [|sig' rest] eqn:Hl.
  { assert (sig ∈ filter (λ s, s = sig) (subscribed o)) as Hin'
      by (by apply list_elem_of_filter).
    rewrite Hl in Hin'. by apply elem_of_nil in Hin'. }
  assert (sig' = sig) as ->.
  { assert (sig' ∈ filter (λ s, s = sig) (subscribed o)) as Hin'
      by (rewrite Hl; left).
    by apply list_elem_of_filter in Hin' as [? _]. }
  pose proof (graceful_shutdown_returns o sig st Hwf Hdev) as Hret.
  destruct (first_shutdown_drains o sig st Hwf Hf Hret) as [Hflag Hsteps].
  destruct (shutdowns_when_draining o rest _ Hflag) as (Hlater & Hflag' & _).
  cbn [shutdowns]. unfold bind.
  destruct (shutdown o sig st) as [[[[]|] st1] e1]; simpl in *; [|by destruct Hret].
  destruct (shutdowns o rest st1) as [[r st2] e2]; simpl in *.
  by rewrite drain_steps_app, Hsteps, Hlater, app_nil_r.
Qed.

Lemma signal_when_draining o sig st :
  isShuttingDown st = true →
  isShuttingDown (step o (EvSignal sig) st).1 = true ∧
  drain_steps (step o (EvSignal sig) st).2 = [].
Proof.
  intros Hf. unfold step.
  destruct (alive st && enabled (EvSignal sig) st); [|done].
  simpl. unfold exec. rewrite on_signal_eq.
  destruct (shutdowns_when_draining o (filter (λ s, s = sig) (subscribed o)) st Hf)
    as (Hsteps & Hflag & _).
  by destruct (shutdowns o _ st) as [[r st2] e2].
Qed.

(** C1.  Once a first invocation of [shutdown] has found the flag down
    and returned, so that further invocations can follow, the drain
    sequence has run exactly once: the first invocation raises the flag,
    closes the listener, sweeps the registry and arms the timer, in that
    order; every later invocation, and any invocation that finds the flag
    up, performs none of these steps. *)
Theorem drain_sequence_runs_once (o : Options) (st : State) (sig : string)
    (sigs : list string) :
  wf st → isShuttingDown st = false →
  is_Some (shutdown o sig st).1.1 →
  isShuttingDown (shutdown o sig st).1.2 = true ∧
  drain_steps (shutdown o sig st).2 =
    EServerClose :: (ESocketDestroy <$> swept st) ++ [ESetTimeout (timeout o)] ∧
  drain_steps (shutdowns o sigs (shutdown o sig st).1.2).2 = [] ∧
  isShuttingDown (shutdowns o sigs (shutdown o sig st).1.2).1.2 = true ∧
  drain_steps (shutdowns o (sig :: sigs) st).2 =
    EServerClose :: (ESocketDestroy <$> swept st) ++ [ESetTimeout (timeout o)] ∧
  (∀ st' sig', isShuttingDown st' = true → drain_steps (shutdown o sig' st').2 = []).
Proof.
  intros Hwf Hf Hret.
  destruct (first_shutdown_drains o sig st Hwf Hf Hret) as [Hflag Hsteps].
  destruct (shutdowns_when_draining o sigs _ Hflag) as (Hlater & Hflag' & _).
  repeat split; try done.
  - cbn [shutdowns]. unfold bind.
    destruct (shutdown o sig st) as [[[[]|] st1] e1]; simpl in *;
      [|by destruct Hret].
    destruct (shutdowns o sigs st1) as [[r st2] e2]; simpl in *.
    by rewrite drain_steps_app, Hsteps, Hlater, app_nil_r.
  - intros st' sig' Hf'. by apply shutdown_when_draining.
Qed.

Lemma drain_sequence_runs_once_witness :
  let o := make_options None in
  let st := (run o [EvConnection 4; EvConnection 5; EvRequest 5] initial).1 in
  drain_steps (shutdowns o ["SIGINT"; "SIGTERM"; "SIGINT"] st).2 =
    [EServerClose; ESocketDestroy 4; ESetTimeout 30000].
Proof.
  intros o st.
  refine (proj1 (proj2 (proj2 (proj2 (proj2
    (drain_sequence_runs_once o st "SIGINT" ["SIGTERM"; "SIGINT"] _ _ _)))))).
  - apply (bool_decide_unpack _). vm_compute. exact I.
  - reflexivity.
  - vm_compute. eexists. reflexivity.
Defined.

Lemma on_signal_sets_flag o sig listeners : ∀ st,
  alive st = true → development o = false → sig ∈ listeners →
  isShuttingDown (on_signal o listeners sig st).1.2 = true.
Proof.
  induction listeners as [|signal rest IH]; intros st Ha Hdev Hin.
  - by apply elem_of_nil in Hin.
  - cbn [on_signal]. unfold bind at 1.
    destruct (decide (signal = sig)) as [->|Hne].
    + assert (isShuttingDown (shutdown o sig st).1.2 = true) as Hf.
      { rewrite shutdown_cases, Hdev.
        destruct (isShuttingDown st) eqn:Hst; [done|].
        pose proof (drain_sets_flag o st Ha) as Hd.
        by destruct (drain o st) as [[r st2] e2]. }
      pose proof (sat_shutdown o sig st Ha) as Hs.
      destruct (shutdown o sig st) as [[[[]|] st1] e1]; simpl in *; [|done].
      destruct Hs as [_ Hs].
      assert (alive st1 = true) as Ha1 by (apply Hs; eauto).
      pose proof (sat_on_signal o sig rest st1 Ha1) as Hr.
      destruct (on_signal o rest sig st1) as [[r st2] e2]. simpl.
      destruct Hr as [Hq _]. by apply (q_flag _ _ _ Hq).
    + unfold ret at 1.
      apply elem_of_cons in Hin as [->|Hin]; [done|].
      specialize (IH st Ha Hdev Hin).
      by destruct (on_signal o rest sig st) as [[r st2] e2].
Qed.

(** C7.  The draining flag starts false; a shutdown trigger raises it
    (whenever the trigger returns, and always in graceful mode, also when
    it arrives as a subscribed signal); and no turn of the event loop,
    whatever the event, ever brings it back to false. *)
Theorem draining_flag_is_one_way :
  isShuttingDown initial = false ∧
  (∀ o sig st, alive st = true →
     (is_Some (shutdown o sig st).1.1 → isShuttingDown (shutdown o sig st).1.2 = true) ∧
     (development o = false → isShuttingDown (shutdown o sig st).1.2 = true)) ∧
  (∀ o sig st, alive st = true → development o = false → sig ∈ subscribed o →
     isShuttingDown (step o (EvSignal sig) st).1 = true) ∧
  (∀ o ev st, isShuttingDown st = true → isShuttingDown (step o ev st).1 = true) ∧
  (∀ o evs st, isShuttingDown st = true → isShuttingDown (run o evs st).1 = true).
Proof.
  split; [done|]. split; [|split; [|split]].
  - intros o sig st Ha. rewrite shutdown_cases.
    pose proof (drain_sets_flag o st Ha) as Hd.
    assert (alive (set_thenHandlers (S (thenHandlers st))
                     (set_callbackCalls (S (callbackCalls st)) st)) = true) as Ha1 by done.
    pose proof (drain_sets_flag o _ Ha1) as Hd1.
    destruct (development o).
    + split; [|done].
      destruct (callback o) as [cb|]; [|by intros [? ?]].
      destruct (cb (callbackCalls st)); [by intros [? ?]|].
      cbv zeta. destruct (isShuttingDown st) eqn:Hst; [intros _; exact Hst|].
      clear Hd. destruct (drain o _) as [[r st2] e2]. simpl in *. done.
    + destruct (isShuttingDown st) eqn:Hst; [by split|].
      clear Hd1. destruct (drain o st) as [[r st2] e2]. simpl in *. done.
  - intros o sig st Ha Hdev Hin. unfold step. rewrite Ha. simpl. unfold exec.
    pose proof (on_signal_sets_flag o sig (subscribed o) st Ha Hdev Hin) as Hf.
    by destruct (on_signal o (subscribed o) sig st) as [[r st2] e2].
  - intros o ev st Hf.
    destruct (alive st) eqn:Ha; [|by rewrite step_dead].
    by apply (s_flag _ _ _ (step_inv_step o ev st Ha)).
  - intros o evs st. apply run_flag.
Qed.

Lemma draining_flag_is_one_way_witness :
  let o := make_options None in
  let st := (run o [EvConnection 4; EvSignal "SIGTERM"] initial).1 in
  isShuttingDown st = true ∧
  isShuttingDown (run o [EvRequest 4; EvFinish 4; EvSignal "SIGINT"; EvTimeout] st).1 = true.
Proof.
  intros o st. split; [reflexivity|].
  apply (proj2 (proj2 (proj2 (proj2 draining_flag_is_one_way)))). reflexivity.
Defined.

Lemma idle_conn_lookup st id h s :
  connections st !! id = Some h → sockets st !! h = Some s →
  idle_conn st id = _isIdle s.
Proof. intros Hid Hs. unfold idle_conn. by rewrite Hid, Hs. Qed.

Lemma not_reaped_busy st keys h s :
  sockets st !! h = Some s → _isIdle s = false → h ∉ reaped st keys.
Proof.
  intros Hs Hb (id & _ & Hi & Hid)%elem_of_reaped.
  rewrite (idle_conn_lookup _ _ _ _ Hid Hs) in Hi. congruence.
Qed.

(** C5.  A reaper pass over the registry does nothing while the draining
    flag is false.  With the flag true it destroys the socket of every
    registered connection marked idle and removes exactly these from the
    registry; a connection marked busy stays registered, its socket
    untouched; nothing else is destroyed and nothing is added. *)
Theorem reaper_pass (st : State) :
  wf st →
  match sweep (Object_keys (connections st)) 0 st with
  | (_, st', es) =>
      if isShuttingDown st then
        (∀ id h s, connections st !! id = Some h → sockets st !! h = Some s →
           if _isIdle s then
             ESocketDestroy h ∈ es ∧ connections st' !! id = None ∧
             sockets st' !! h = Some (set_destroyed s)
           else
             (ESocketDestroy h ∉ es) ∧ connections st' !! id = Some h ∧
             sockets st' !! h = Some s) ∧
        (∀ id h, connections st' !! id = Some h → connections st !! id = Some h) ∧
        (∀ e, e ∈ es →
           ∃ id h, e = ESocketDestroy h ∧ connections st !! id = Some h ∧
                   idle_conn st id = true)
      else st' = st ∧ es = []
  end.
Proof.
  intros Hwf. destruct (isShuttingDown st) eqn:Hf.
  - rewrite sweep_draining;
      [|done|done|apply Object_keys_NoDup|intros k; by rewrite elem_of_Object_keys].
    cbn [connections sockets set_connections set_sockets].
    split; [|split].
    + intros id h s Hid Hs.
      pose proof (idle_conn_lookup _ _ _ _ Hid Hs) as Hidle.
      rewrite lookup_foldl_delete, lookup_foldl_destroyed.
      destruct (_isIdle s) eqn:Hi.
      * assert (id ∈ reaped_ids st (Object_keys (connections st))) as Hr.
        { apply elem_of_reaped_ids. split; [|done].
          apply elem_of_Object_keys. eauto. }
        assert (h ∈ reaped st (Object_keys (connections st))) as Hr'.
        { apply elem_of_reaped. exists id. split; [|done].
          apply elem_of_Object_keys. eauto. }
        rewrite !decide_True by done. rewrite Hs.
        split; [|done]. apply list_elem_of_fmap. eauto.
      * assert (h ∉ reaped st (Object_keys (connections st))) as Hr'
          by (by eapply not_reaped_busy).
        rewrite (decide_False (P := h ∈ _)) by done.
        rewrite decide_False.
        -- split; [|done]. intros (h' & Heq & Hin)%list_elem_of_fmap.
           inversion Heq; subst. done.
        -- intros [_ Hr]%elem_of_reaped_ids. congruence.
    + intros id h. rewrite lookup_foldl_delete. by case_decide.
    + intros e (h & -> & (id & _ & Hi & Hid)%elem_of_reaped)%list_elem_of_fmap.
      eauto.
  - rewrite sweep_not_draining; [done|done|done|].
    intros k. by rewrite elem_of_Object_keys.
Qed.

Lemma reaper_pass_witness :
  let st := (run (make_options None)
               [EvConnection 4; EvConnection 5; EvRequest 5; EvSignal "SIGTERM";
                EvConnection 6] initial).1 in
  wf st ∧
  (let '(_, st', es) := sweep (Object_keys (connections st)) 0 st in
   ESocketDestroy 6 ∈ es ∧ connections st' !! 2 = None ∧
   (ESocketDestroy 5 ∉ es) ∧ connections st' !! 1 = Some 5).
Proof.
  intros st.
  assert (wf st) as Hwf by (apply (bool_decide_unpack _); vm_compute; exact I).
  split; [exact Hwf|].
  pose proof (reaper_pass st Hwf) as H.
  destruct (sweep (Object_keys (connections st)) 0 st) as [[r st'] es].
  change (isShuttingDown st) with true in H. cbv iota in H.
  destruct H as (H & _ & _).
  pose proof (H 2 6 (mkSocket true 2 false) eq_refl eq_refl) as (H6 & H6' & _).
  pose proof (H 1 5 (mkSocket false 1 false) eq_refl eq_refl) as (H5 & H5' & _).
  done.
Defined.

Lemma first_shutdown_state o sig st :
  wf st → isShuttingDown st = false → is_Some (shutdown o sig st).1.1 →
  connections (shutdown o sig st).1.2 = connections (drained st) ∧
  sockets (shutdown o sig st).1.2 = sockets (drained st).
Proof.
  intros Hwf Hf. rewrite shutdown_cases, Hf.
  destruct (development o).
  - destruct (callback o) as [cb|]; [|by intros [? ?]].
    destruct (cb (callbackCalls st)); [by intros [? ?]|].
    cbv zeta. by rewrite drain_eq by exact Hwf.
  - by rewrite drain_eq by done.
Qed.

Lemma finish_draining o st id h s :
  wf st → alive st = true → isShuttingDown st = true →
  connections st !! id = Some h → sockets st !! h = Some s →
  (step o (EvFinish h) st).2 = [ESocketDestroy h] ∧
  connections (step o (EvFinish h) st).1 !! id = None ∧
  sockets (step o (EvFinish h) st).1 !! h = Some (mkSocket true id true).
Proof.
  intros Hwf Ha Hf Hid Hs.
  destruct (wf_lookup _ _ _ Hwf Hid) as (s' & Hs' & Hcid).
  assert (s' = s) as -> by congruence.
  rewrite (step_finish _ _ s), Hf by done. simpl.
  rewrite Hcid, lookup_delete_eq, lookup_insert_eq. done.
Qed.

(** C4.  A connection that is busy while the library is draining is
    marked idle by the finish of its response, destroyed in that same
    handler and removed from the registry.  In particular a connection
    that is busy when the drain starts survives the sweep, still
    registered and open, and is reaped by its own finish event. *)
Theorem busy_connection_reaped_on_finish (o : Options) (st : State)
    (id h : nat) (s : Socket) :
  wf st → alive st = true →
  connections st !! id = Some h → sockets st !! h = Some s → _isIdle s = false →
  (isShuttingDown st = true →
     (step o (EvFinish h) st).2 = [ESocketDestroy h] ∧
     connections (step o (EvFinish h) st).1 !! id = None ∧
     sockets (step o (EvFinish h) st).1 !! h = Some (mkSocket true id true)) ∧
  (∀ sig, isShuttingDown st = false → is_Some (shutdown o sig st).1.1 →
     (ESocketDestroy h ∉ (shutdown o sig st).2) ∧
     connections (shutdown o sig st).1.2 !! id = Some h ∧
     sockets (shutdown o sig st).1.2 !! h = Some s ∧
     (step o (EvFinish h) (shutdown o sig st).1.2).2 = [ESocketDestroy h] ∧
     connections (step o (EvFinish h) (shutdown o sig st).1.2).1 !! id = None ∧
     sockets (step o (EvFinish h) (shutdown o sig st).1.2).1 !! h
       = Some (mkSocket true id true)).
Proof.
  intros Hwf Ha Hid Hs Hb. split.
  - intros Hf. by apply (finish_draining o st id h s).
  - intros sig Hf Hret.
    destruct (first_shutdown_drains o sig st Hwf Hf Hret) as [Hflag _].
    destruct (first_shutdown_state o sig st Hwf Hf Hret) as [Hc _].
    pose proof (sat_shutdown o sig st Ha) as Hsat.
    destruct (shutdown o sig st) as [[r st1] es1]; simpl in *.
    destruct Hsat as [Hq Halive].
    assert (alive st1 = true) as Ha1 by (by apply Halive).
    assert (connections st1 !! id = Some h) as Hid1.
    { rewrite Hc. simpl. rewrite lookup_foldl_delete, decide_False; [done|].
      intros [_ Hi]%elem_of_reaped_ids.
      rewrite (idle_conn_lookup _ _ _ _ Hid Hs) in Hi. congruence. }
    assert (sockets st1 !! h = Some s) as Hs1
      by exact (q_busy _ _ _ Hq h s Hs Hb).
    split; [|split; [done|split; [done|]]].
    + intros Hin. destruct (q_destroy _ _ _ Hq h Hin) as [_ Hi].
      rewrite Hs in Hi. simpl in Hi. congruence.
    + apply (finish_draining o st1 id h s); try done. by apply (q_wf _ _ _ Hq).
Qed.

Lemma busy_connection_reaped_on_finish_witness :
  let o := make_options None in
  let st := (run o [EvConnection 4; EvRequest 4] initial).1 in
  (ESocketDestroy 4 ∉ (shutdown o "SIGTERM" st).2) ∧
  (step o (EvFinish 4) (shutdown o "SIGTERM" st).1.2).2 = [ESocketDestroy 4] ∧
  connections (step o (EvFinish 4) (shutdown o "SIGTERM" st).1.2).1 !! 0 = None.
Proof.
  intros o st.
  assert (wf st) as Hwf by (apply (bool_decide_unpack _); vm_compute; exact I).
  assert (is_Some (shutdown o "SIGTERM" st).1.1) as Hret
    by (vm_compute; eexists; reflexivity).
  destruct (busy_connection_reaped_on_finish o st 0 4 (mkSocket false 0 false)
              Hwf eq_refl eq_refl eq_refl eq_refl) as [_ H].
  destruct (H "SIGTERM" eq_refl Hret) as (H1 & _ & _ & H2 & H3 & _).
  done.
Defined.

(** A socket is destroyed only in a state where the draining flag is
    true and the socket is marked idle.  A socket marked busy is left
    alone by every handler (it can only be reaped by the finish of a
    response on it, which marks it idle first), and the forced-timeout
    handler destroys no socket at all. *)
Lemma destroy_needs_idle_mark (o : Options) (ev : Event) (st : State) (h : nat) :
  (ESocketDestroy h ∈ (step o ev st).2 →
     isShuttingDown (step o ev st).1 = true ∧
     _isIdle <$> sockets (step o ev st).1 !! h = Some true) ∧
  (∀ s, sockets st !! h = Some s → _isIdle s = false → ev ≠ EvFinish h →
     (ESocketDestroy h ∉ (step o ev st).2) ∧
     destroyed <$> sockets (step o ev st).1 !! h = Some (destroyed s)) ∧
  (ESocketDestroy h ∉ (step o EvTimeout st).2).
Proof.
  destruct (alive st) eqn:Ha.
  2: { rewrite !step_dead by done. simpl.
       split; [by intros ?%elem_of_nil|]. split; [|by intros ?%elem_of_nil].
       intros s Hs _ _. rewrite Hs. split; [by intros ?%elem_of_nil|done]. }
  split; [|split].
  - apply (s_destroy _ _ _ (step_inv_step o ev st Ha)).
  - intros s Hs Hb Hne.
    destruct (shutdown_event ev) eqn:Hev.
    { pose proof (step_quiet o ev st Hev Ha) as Hq. split.
      - intros Hin. destruct (q_destroy _ _ _ Hq h Hin) as [_ Hi].
        rewrite Hs in Hi. simpl in Hi. congruence.
      - by rewrite (q_busy _ _ _ Hq h s Hs Hb). }
    destruct (enabled ev st) eqn:Hen.
    2: { rewrite step_disabled by done. simpl. rewrite Hs.
         split; [by intros ?%elem_of_nil|done]. }
    destruct ev as [h'|h'|h'|h'| | | |]; try done; simpl in Hen.
    + apply bool_decide_eq_true_1 in Hen. rewrite step_connection by done. simpl.
      split; [by intros ?%elem_of_nil|].
      rewrite lookup_insert_ne by congruence. by rewrite Hs.
    + apply bool_decide_eq_true_1 in Hen. rewrite step_request by done. simpl.
      split; [by intros ?%elem_of_nil|].
      rewrite lookup_alter. case_decide; subst; by rewrite Hs.
    + apply bool_decide_eq_true_1 in Hen as [s' Hs'].
      assert (h' ≠ h) as Hh by congruence.
      rewrite (step_finish _ _ s') by done.
      destruct (isShuttingDown st); simpl; rewrite lookup_insert_ne, Hs by done.
      * split; [|done]. intros Hin%list_elem_of_singleton. congruence.
      * split; [by intros ?%elem_of_nil|done].
    + apply bool_decide_eq_true_1 in Hen as [s' Hs'].
      rewrite (step_socket_close _ _ s') by done. simpl. rewrite Hs.
      split; [by intros ?%elem_of_nil|done].
  - unfold step. rewrite Ha. simpl.
    destruct (bool_decide (0 < timers st)); [|by intros ?%elem_of_nil].
    unfold exec, on_timeout, bind, modify, debug, emit.
    rewrite handleCallbackThenExit_eq.
    destruct (callback o) as [cb|]; [destruct (cb _)|]; simpl;
      intros Hin; repeat (apply elem_of_cons in Hin as [Hin|Hin]; [done|]);
      by apply elem_of_nil in Hin.
Qed.

(** *** Requests in flight and the idle mark *)

Lemma pending_responses_snoc h past ev :
  pending_responses h (past ++ [ev]) = in_flight_after h (pending_responses h past) ev.
Proof. unfold pending_responses. by rewrite foldl_snoc. Qed.

Lemma announced_spec h past : announced h past = true ↔ EvConnection h ∈ past.
Proof. unfold announced. apply bool_decide_eq_true. Qed.

Lemma announced_false h past : announced h past = false ↔ EvConnection h ∉ past.
Proof. unfold announced. apply bool_decide_eq_false. Qed.

Lemma announced_snoc h past ev :
  announced h (past ++ [ev]) = true ↔ announced h past = true ∨ ev = EvConnection h.
Proof.
  rewrite !announced_spec, elem_of_app, list_elem_of_singleton.
  split; intros [?|?]; auto.
Qed.

Lemma serial_from_app l1 : ∀ past l2,
  serial_from past (l1 ++ l2) = serial_from past l1 && serial_from (past ++ l1) l2.
Proof.
  induction l1 as [|ev l1 IH]; intros past l2.
  - by rewrite app_nil_r.
  - cbn [app serial_from]. rewrite IH, <- app_assoc. cbn [app].
    by rewrite andb_assoc.
Qed.

Lemma history_inv_initial : history_inv [] initial.
Proof.
  split; unfold initial; cbn [sockets].
  - intros h. rewrite announced_spec. split.
    + by intros ?%elem_of_nil.
    + intros [s Hs]. by apply lookup_empty_Some in Hs.
  - intros h s Hs. by apply lookup_empty_Some in Hs.
  - done.
Qed.

(** An event that leaves every idle mark alone and is neither a
    'connection', a request nor a finish. *)
Lemma history_inv_frame past ev st st' :
  (∀ h, _isIdle <$> sockets st' !! h = _isIdle <$> sockets st !! h) →
  (∀ h, in_flight_after h (pending_responses h past) ev = pending_responses h past) →
  (∀ h, ev ≠ EvConnection h) →
  history_inv past st → history_inv (past ++ [ev]) st'.
Proof.
  intros Hidle Hflight Hconn [HA HP HQ]. split.
  - intros h. rewrite announced_snoc, HA, <- !fmap_is_Some with (f := _isIdle).
    rewrite Hidle. specialize (Hconn h).
    split; [intros [?|?]; done|auto].
  - intros h s' Hs'. rewrite pending_responses_snoc, Hflight.
    specialize (Hidle h). rewrite Hs' in Hidle.
    destruct (sockets st !! h) as [s|] eqn:Hs; [|done].
    injection Hidle as Hidle. rewrite Hidle. by apply HP.
  - intros h Hh. rewrite pending_responses_snoc, Hflight. apply HQ.
    destruct (announced h past) eqn:Ha; [|done].
    assert (announced h (past ++ [ev]) = true) as Hc by (apply announced_snoc; by left).
    congruence.
Qed.

Lemma history_inv_step o past ev st :
  alive st = true → admissible past ev = true →
  history_inv past st → history_inv (past ++ [ev]) (step o ev st).1.
Proof.
  intros Ha Hadm Hinv.
  destruct (shutdown_event ev) eqn:Hev.
  { apply history_inv_frame with (st := st); try done.
    - apply (q_idle _ _ _ (step_quiet o ev st Hev Ha)).
    - intros h. by destruct ev.
    - intros h. by destruct ev. }
  destruct Hinv as [HA HP HQ].
  destruct ev as [h0|h0|h0|h0| | | |]; try done; cbn [admissible] in Hadm.
  - apply negb_true_iff in Hadm.
    assert (sockets st !! h0 = None) as Hnew.
    { destruct (sockets st !! h0) eqn:Hs; [|done].
      assert (announced h0 past = true) by (apply HA; eauto). congruence. }
    rewrite step_connection by done. split; simpl.
    + intros h. rewrite announced_snoc, HA, lookup_insert_is_Some'.
      split; [intros [?|[= ->]]; auto|intros [->|?]; auto].
    + intros h s [[<- <-]|[Hne Hs]]%lookup_insert_Some;
        rewrite pending_responses_snoc; cbn [in_flight_after].
      * by apply HQ.
      * by apply HP.
    + intros h Hh. rewrite pending_responses_snoc. cbn [in_flight_after]. apply HQ.
      destruct (announced h past) eqn:Hp; [|done].
      assert (announced h (past ++ [EvConnection h0]) = true) as Hc
        by (apply announced_snoc; by left).
      congruence.
  - apply andb_true_iff in Hadm as [Hann Hzero].
    apply bool_decide_eq_true_1 in Hzero.
    pose proof (proj1 (HA h0) Hann) as [s0 Hs0].
    rewrite step_request by eauto. split; simpl.
    + intros h. rewrite announced_snoc, HA, lookup_alter_is_Some.
      split; [intros [?|?]; done|auto].
    + intros h s. rewrite pending_responses_snoc, lookup_alter. cbn [in_flight_after].
      destruct (decide (h0 = h)) as [<-|Hne].
      * rewrite Hs0. intros [= <-]. simpl. by rewrite Hzero.
      * by apply HP.
    + intros h Hh. rewrite pending_responses_snoc. cbn [in_flight_after].
      destruct (decide (h0 = h)) as [<-|Hne].
      * assert (announced h0 (past ++ [EvRequest h0]) = true) as Hc
          by (apply announced_snoc; by left).
        congruence.
      * apply HQ. destruct (announced h past) eqn:Hp; [|done].
        assert (announced h (past ++ [EvRequest h0]) = true) as Hc
          by (apply announced_snoc; by left).
        congruence.
  - apply bool_decide_eq_true_1 in Hadm.
    assert (announced h0 past = true) as Hann.
    { destruct (announced h0 past) eqn:Hp; [done|]. rewrite HQ in Hadm; done. }
    pose proof (proj1 (HA h0) Hann) as [s0 Hs0].
    rewrite (step_finish _ _ s0) by done.
    assert (∀ b d, history_inv (past ++ [EvFinish h0])
              (set_sockets (<[h0 := mkSocket true b d]> (sockets st)) st)) as Hgen.
    { intros b d. split; simpl.
      - intros h. rewrite announced_snoc, HA, lookup_insert_is_Some'.
        split; [intros [?|?]; [by right|done]|intros [<-|?]; left; eauto].
      - intros h s [[<- <-]|[Hne Hs]]%lookup_insert_Some;
          rewrite pending_responses_snoc; cbn [in_flight_after].
        + rewrite decide_True by done. simpl. by rewrite Hadm.
        + rewrite decide_False by done. by apply HP.
      - intros h Hh. rewrite pending_responses_snoc. cbn [in_flight_after].
        destruct (decide (h0 = h)) as [<-|Hne].
        + assert (announced h0 (past ++ [EvFinish h0]) = true) as Hc
            by (apply announced_snoc; by left).
          congruence.
        + apply HQ. destruct (announced h past) eqn:Hp; [|done].
          assert (announced h (past ++ [EvFinish h0]) = true) as Hc
            by (apply announced_snoc; by left).
          congruence. }
    destruct (isShuttingDown st).
    + destruct (Hgen (_connectionId s0) true) as [A P Q]. by split.
    + destruct (Hgen (_connectionId s0) (destroyed s0)) as [A P Q].
      split; simpl; try done.
  - apply history_inv_frame with (st := st); try done.
    destruct (enabled (EvSocketClose h0) st) eqn:Hen;
      [|by rewrite step_disabled].
    simpl in Hen. apply bool_decide_eq_true_1 in Hen as [s Hs].
    by rewrite (step_socket_close _ _ s).
Qed.

Lemma alive_before_step o ev st : alive (step o ev st).1 = true → alive st = true.
Proof.
  intros Ha. destruct (alive st) eqn:Hst; [done|].
  rewrite step_dead in Ha by done. simpl in Ha. congruence.
Qed.

Lemma history_inv_run o evs : ∀ past st,
  history_inv past st → serial_from past evs = true →
  alive (run o evs st).1 = true →
  history_inv (past ++ evs) (run o evs st).1.
Proof.
  induction evs as [|ev evs IH]; intros past st Hinv Hser Ha.
  - by rewrite app_nil_r.
  - cbn [serial_from] in Hser. apply andb_true_iff in Hser as [Hadm Hser].
    rewrite run_cons in *. cbn [fst] in *.
    assert (alive (step o ev st).1 = true) as Ha1.
    { destruct (alive (step o ev st).1) eqn:H1; [done|].
      rewrite run_dead in Ha by done. simpl in Ha. congruence. }
    replace (past ++ ev :: evs) with ((past ++ [ev]) ++ evs)
      by (by rewrite <- app_assoc).
    apply IH; [|done|done].
    apply history_inv_step; [by eapply alive_before_step|done|done].
Qed.

(** C10, as stated, fails: the idle mark is one boolean per socket.  With
    two requests in flight on one socket, the finish of the first
    response marks the socket idle and, while draining, destroys it with
    the second request still in progress; and if that finish came before
    the trigger, the sweep destroys it. *)
Lemma overlapping_requests_destroyed_mid_cycle :
  let o := make_options None in
  let by_finish := [EvConnection 4; EvRequest 4; EvRequest 4; EvSignal "SIGTERM"] in
  let by_sweep := [EvConnection 4; EvRequest 4; EvRequest 4; EvFinish 4] in
  (pending_responses 4 (by_finish ++ [EvFinish 4]) = 1 ∧
   (step o (EvFinish 4) (run o by_finish initial).1).2 = [ESocketDestroy 4]) ∧
  (pending_responses 4 (by_sweep ++ [EvSignal "SIGTERM"]) = 1 ∧
   ESocketDestroy 4 ∈ (step o (EvSignal "SIGTERM") (run o by_sweep initial).1).2).
Proof.
  intros o by_finish by_sweep. split; split; try reflexivity.
  apply (bool_decide_unpack _). vm_compute. exact I.
Qed.

(** C10, amended.  The destroy helper acts only on a socket marked idle,
    with the draining flag true: a socket marked busy is destroyed by no
    sweep and no handler, and the forced-timeout handler destroys no
    socket at all.  The mark is kept per socket: as long as requests on
    one socket do not overlap, a socket with a request in flight is
    marked busy, so a connection in the middle of a request/response
    cycle is never destroyed. *)
Theorem mid_cycle_connection_never_destroyed (o : Options) (evs : list Event)
    (ev : Event) (st : State) (h : nat) :
  (ESocketDestroy h ∈ (step o ev st).2 →
     isShuttingDown (step o ev st).1 = true ∧
     _isIdle <$> sockets (step o ev st).1 !! h = Some true) ∧
  (∀ s, sockets st !! h = Some s → _isIdle s = false → ev ≠ EvFinish h →
     (ESocketDestroy h ∉ (step o ev st).2) ∧
     destroyed <$> sockets (step o ev st).1 !! h = Some (destroyed s)) ∧
  (ESocketDestroy h ∉ (step o EvTimeout st).2) ∧
  (serial (evs ++ [ev]) = true → 0 < pending_responses h (evs ++ [ev]) →
     (ESocketDestroy h ∉ (step o ev (run o evs initial).1).2) ∧
     (alive (run o evs initial).1 = true →
        _isIdle <$> sockets (step o ev (run o evs initial).1).1 !! h = Some false)).
Proof.
  destruct (destroy_needs_idle_mark o ev st h) as (Hmark & Hbusy & Htimer).
  split; [exact Hmark|]. split; [exact Hbusy|]. split; [exact Htimer|].
  intros Hser Hpending. unfold serial in Hser.
  rewrite serial_from_app in Hser. apply andb_true_iff in Hser as [Hser Hadm].
  cbn [serial_from app] in Hadm. rewrite andb_true_r in Hadm.
  set (st0 := (run o evs initial).1).
  assert (alive st0 = true →
          _isIdle <$> sockets (step o ev st0).1 !! h = Some false) as Hpost.
  { intros Ha.
    pose proof (history_inv_run o evs [] initial history_inv_initial Hser Ha) as Hinv.
    destruct (history_inv_step o evs ev st0 Ha Hadm Hinv) as [HA HP HQ].
    destruct (announced h (evs ++ [ev])) eqn:Hann; [|rewrite HQ in Hpending; [lia|done]].
    apply HA in Hann as [s Hs]. rewrite Hs. simpl. f_equal.
    specialize (HP h s Hs). destruct (_isIdle s); [lia|done]. }
  split; [|exact Hpost].
  intros Hin.
  destruct (alive st0) eqn:Ha;
    [|rewrite step_dead in Hin by done; by apply elem_of_nil in Hin].
  destruct (destroy_needs_idle_mark o ev st0 h) as (Hmark0 & _ & _).
  destruct (Hmark0 Hin) as [_ Hidle]. rewrite Hpost in Hidle by done. congruence.
Qed.

Lemma mid_cycle_connection_never_destroyed_witness :
  let o := make_options None in
  let evs := [EvConnection 4; EvConnection 5; EvRequest 4] in
  serial (evs ++ [EvSignal "SIGTERM"]) = true ∧
  0 < pending_responses 4 (evs ++ [EvSignal "SIGTERM"]) ∧
  (ESocketDestroy 4 ∉ (step o (EvSignal "SIGTERM") (run o evs initial).1).2).
Proof.
  intros o evs.
  assert (serial (evs ++ [EvSignal "SIGTERM"]) = true) as Hser by reflexivity.
  assert (0 < pending_responses 4 (evs ++ [EvSignal "SIGTERM"])) as Hp
    by (vm_compute; lia).
  split; [exact Hser|]. split; [exact Hp|].
  destruct (mid_cycle_connection_never_destroyed o evs (EvSignal "SIGTERM") initial 4)
    as (_ & _ & _ & H).
  exact (proj1 (H Hser Hp)).
Defined.

(** The counter of a sweep is the number of registered connections,
    idle or busy. *)
Lemma sweep_counts_registered st :
  wf st → (sweep (Object_keys (connections st)) 0 st).1.1 = Some (size (connections st)).
Proof.
  intros Hwf. destruct (isShuttingDown st) eqn:Hf.
  - rewrite sweep_draining;
      [|done|done|apply Object_keys_NoDup|intros k; by rewrite elem_of_Object_keys].
    simpl. by rewrite length_Object_keys, Nat.add_0_r.
  - rewrite sweep_not_draining;
      [|done|done|intros k; by rewrite elem_of_Object_keys].
    simpl. by rewrite length_Object_keys, Nat.add_0_r.
Qed.

(** C8.  One registered connection with a request in flight, then
    SIGTERM: the sweep destroys nothing, yet the count it reports under
    'Connections destroyed : ' is 1, the number of connections examined. *)
Theorem sweep_counter_counts_examined :
  (run (make_options None) [EvConnection 4; EvRequest 4; EvSignal "SIGTERM"] initial).2 =
  [EDebug (DbgSignal "SIGTERM"); EDebug DbgShuttingDown; EServerClose;
   EDebug (DbgDestroyed 1); EDebug (DbgCounter 1); ESetTimeout 30000].
Proof. vm_compute. reflexivity. Qed.

(** In development mode a trigger exits on the spot, without any drain
    step, when no callback is configured or the callback returns
    synchronously. *)
Lemma dev_mode_sync_skips_drain o sig st :
  development o = true →
  (callback o = None ∨ ∃ cb, callback o = Some cb ∧ cb (callbackCalls st) = NotThenable) →
  status (shutdown o sig st).1.2 = Exited 1 ∧
  drain_steps (shutdown o sig st).2 = [] ∧
  isShuttingDown (shutdown o sig st).1.2 = isShuttingDown st.
Proof.
  intros Hdev Hcb. rewrite shutdown_cases, Hdev.
  destruct Hcb as [->|(cb & -> & ->)]; done.
Qed.

(** C2.  Development mode with a callback that returns a promise, one
    idle connection, then SIGTERM: the callback is called, the process is
    still alive, and the whole drain sequence runs — listener closed,
    idle socket destroyed, timer armed. *)
Theorem dev_mode_thenable_callback_drains :
  let o := make_options (Some (mkRaw None None (Some true) (Some (λ _, Thenable)))) in
  (run o [EvConnection 4; EvSignal "SIGTERM"] initial).2 =
    [EDebug (DbgSignal "SIGTERM"); EDebug DbgDevMode; ECallback;
     EDebug DbgShuttingDown; EServerClose; ESocketDestroy 4;
     EDebug (DbgDestroyed 1); EDebug (DbgCounter 1); ESetTimeout 30000] ∧
  alive (run o [EvConnection 4; EvSignal "SIGTERM"] initial).1 = true.
Proof. vm_compute. split; reflexivity. Qed.

(** C6, as stated, fails: with a callback that returns a promise still
    pending, the listener's close callback calls the user callback, and
    the timer that fires afterwards calls it a second time. *)
Lemma finalizer_invoked_twice :
  let o := make_options (Some (mkRaw None None None (Some (λ _, Thenable)))) in
  let st := (run o [EvSignal "SIGTERM"; EvListenerClosed] initial).1 in
  alive st = true ∧ callbackCalls st = 1 ∧
  (step o EvTimeout st).2 = [EDebug (DbgTimeout 30000); ECallback] ∧
  callbackCalls (step o EvTimeout st).1 = 2.
Proof. vm_compute. repeat split; reflexivity. Qed.

Lemma finalizer_arrival o ev st :
  alive st = true → ev = EvListenerClosed ∨ ev = EvTimeout → enabled ev st = true →
  ∃ st0 es0,
    alive st0 = true ∧ callbackCalls st0 = callbackCalls st ∧
    thenHandlers st0 = thenHandlers st ∧
    match handleCallbackThenExit o st0 with
    | (_, st', es) => step o ev st = (st', es0 ++ es)
    end.
Proof.
  intros Ha [-> | ->] Hen; unfold step; rewrite Ha, Hen; simpl.
  - exists (set_closeCallbacks (pred (closeCallbacks st)) st), [].
    repeat split; try done.
    unfold exec, on_listener_closed, bind, modify.
    by destruct (handleCallbackThenExit o _) as [[r st'] es].
  - exists (set_timers (pred (timers st)) st), [EDebug (DbgTimeout (timeout o))].
    repeat split; try done.
    unfold exec, on_timeout, bind, modify, debug, emit.
    by destruct (handleCallbackThenExit o _) as [[r st'] es].
Qed.

(** C6, amended.  Whichever of the listener's close callback and the
    timer arrives first drives finalization.  If no callback is
    configured or the callback returns synchronously, that arrival exits
    the process with status 1 and nothing runs afterwards.  If the
    callback returns a promise, the arrival calls it and the process
    waits; once the promise settles the process exits and nothing runs
    afterwards.  An arrival that finds the process alive always calls a
    configured callback, and [process.exit] is called at most once in
    every run. *)
Theorem finalizer_race (o : Options) (st : State) (ev : Event) :
  alive st = true → ev = EvListenerClosed ∨ ev = EvTimeout → enabled ev st = true →
  ((callback o = None ∨
    ∃ cb, callback o = Some cb ∧ cb (callbackCalls st) = NotThenable) →
     status (step o ev st).1 = Exited 1 ∧
     ∀ evs, run o evs (step o ev st).1 = ((step o ev st).1, [])) ∧
  (∀ cb, callback o = Some cb → cb (callbackCalls st) = Thenable →
     alive (step o ev st).1 = true ∧
     ∀ outcome,
       status (step o (EvSettled outcome) (step o ev st).1).1 = Exited 1 ∧
       ∀ evs, run o evs (step o (EvSettled outcome) (step o ev st).1).1 =
              ((step o (EvSettled outcome) (step o ev st).1).1, [])) ∧
  (∀ cb, callback o = Some cb →
     ECallback ∈ (step o ev st).2 ∧
     callbackCalls (step o ev st).1 = S (callbackCalls st)) ∧
  (∀ evs, length (exits (run o evs st).2) ≤ 1).
Proof.
  intros Ha Hev Hen.
  destruct (finalizer_arrival o ev st Ha Hev Hen) as (st0 & es0 & Ha0 & Hcc & Hth & Hstep).
  rewrite handleCallbackThenExit_eq in Hstep.
  split; [|split; [|split]].
  - intros Hcb.
    assert (status (step o ev st).1 = Exited 1) as Hst.
    { destruct Hcb as [Hcb|(cb & Hcb & Hr)]; rewrite Hcb in Hstep.
      - by rewrite Hstep.
      - rewrite Hcc, Hr in Hstep. by rewrite Hstep. }
    split; [done|]. intros evs. apply run_dead. unfold alive. by rewrite Hst.
  - intros cb Hcb Hr. rewrite Hcb, Hcc, Hr in Hstep. rewrite Hstep. simpl.
    split; [unfold alive in *; simpl; by destruct (status st0)|].
    intros outcome.
    assert (status (step o (EvSettled outcome)
              (set_thenHandlers (S (thenHandlers st0))
                 (set_callbackCalls (S (callbackCalls st)) st0))).1 = Exited 1) as Hst.
    { unfold step, alive in *. simpl. by destruct (status st0). }
    split; [done|]. intros evs. apply run_dead. unfold alive. by rewrite Hst.
  - intros cb Hcb. rewrite Hcb, Hcc in Hstep.
    destruct (cb (callbackCalls st)); rewrite Hstep; simpl;
      (split; [|done]); apply elem_of_app; right; left.
  - intros evs. pose proof (run_exit o evs st Ha) as Hx.
    destruct (alive (run o evs st).1).
    + rewrite Hx. simpl. lia.
    + destruct Hx as [[_ ->]|[_ ->]]; simpl; lia.
Qed.

Lemma finalizer_race_witness :
  let o := make_options None in
  let st := (run o [EvSignal "SIGTERM"] initial).1 in
  status (step o EvListenerClosed st).1 = Exited 1 ∧
  run o [EvTimeout] (step o EvListenerClosed st).1 = ((step o EvListenerClosed st).1, []).
Proof.
  intros o st.
  destruct (finalizer_race o st EvListenerClosed eq_refl (or_introl eq_refl) eq_refl)
    as (H & _).
  destruct (H (or_introl eq_refl)) as [H1 H2].
  split; [exact H1|exact (H2 [EvTimeout])].
Defined.

(** ** More of the code: the registry, the signals, the life of the process *)

(** *** What a trigger does to the registry *)

Lemma drained_connections_lookup st id :
  connections (drained st) !! id =
  if idle_conn st id then None else connections st !! id.
Proof.
  cbn [drained connections]. rewrite lookup_foldl_delete.
  destruct (idle_conn st id) eqn:Hi.
  - rewrite decide_True; [done|]. apply elem_of_reaped_ids. split; [|done].
    apply elem_of_Object_keys. unfold idle_conn in Hi.
    destruct (connections st !! id); [eauto|done].
  - rewrite decide_False; [done|]. intros [_ ?]%elem_of_reaped_ids. congruence.
Qed.

Lemma elem_of_swept st h :
  h ∈ swept st ↔ ∃ id, connections st !! id = Some h ∧ idle_conn st id = true.
Proof.
  unfold swept. rewrite elem_of_reaped. split.
  - intros (id & _ & ? & ?). eauto.
  - intros (id & Hid & ?). exists id. split; [|done].
    apply elem_of_Object_keys. eauto.
Qed.

Lemma drained_sockets_lookup st h :
  sockets (drained st) !! h =
  if decide (h ∈ swept st) then set_destroyed <$> sockets st !! h else sockets st !! h.
Proof. cbn [drained sockets]. apply lookup_foldl_destroyed. Qed.

Lemma dom_foldl_destroyed (hs : list nat) : ∀ (m : gmap nat Socket),
  dom (foldl (λ m h, alter set_destroyed h m) m hs) = dom m.
Proof.
  induction hs as [|a hs IH]; intros m; cbn [foldl]; [done|].
  by rewrite IH, dom_alter_L.
Qed.

Lemma drained_sockets_size st : size (sockets (drained st)) = size (sockets st).
Proof.
  cbn [drained sockets].
  by rewrite <- !(size_dom (D := gset nat)), dom_foldl_destroyed.
Qed.

(** A call of [shutdown] leaves the registry and the sockets alone, or
    (flag down, guard reached) leaves them as the drain does; it never
    touches the counter; and with a consistent registry it ends the
    process only through [process.exit(1)]. *)
Lemma shutdown_registry o sig st :
  wf st →
  connectionCounter (shutdown o sig st).1.2 = connectionCounter st ∧
  (status (shutdown o sig st).1.2 = status st ∨
   status (shutdown o sig st).1.2 = Exited 1) ∧
  ((connections (shutdown o sig st).1.2 = connections st ∧
    sockets (shutdown o sig st).1.2 = sockets st) ∨
   (isShuttingDown st = false ∧
    connections (shutdown o sig st).1.2 = connections (drained st) ∧
    sockets (shutdown o sig st).1.2 = sockets (drained st))).
Proof.
  intros Hwf. rewrite shutdown_cases.
  assert (∀ st' : State,
            connectionCounter st' = connectionCounter st →
            (status st' = status st ∨ status st' = Exited 1) →
            connections st' = connections st → sockets st' = sockets st →
            connectionCounter st' = connectionCounter st ∧
            (status st' = status st ∨ status st' = Exited 1) ∧
            ((connections st' = connections st ∧ sockets st' = sockets st) ∨
             (isShuttingDown st = false ∧
              connections st' = connections (drained st) ∧
              sockets st' = sockets (drained st)))) as Hsame by (by intros; auto).
  destruct (development o).
  - destruct (callback o) as [cb|]; [|apply Hsame; simpl; auto].
    destruct (cb (callbackCalls st)); [apply Hsame; simpl; auto|].
    cbv zeta. destruct (isShuttingDown st) eqn:Hf; [apply Hsame; simpl; auto|].
    rewrite drain_eq by exact Hwf. simpl.
    split; [done|]. split; [by left|]. right. done.
  - destruct (isShuttingDown st) eqn:Hf; [apply Hsame; simpl; auto|].
    rewrite drain_eq by done. simpl.
    split; [done|]. split; [by left|]. right. done.
Qed.

Lemma registry_inv_wf st : registry_inv st → wf st.
Proof.
  intros Hinv id h Hid. destruct (r_live _ Hinv id h Hid) as (s & Hs & Hc & _).
  simpl. rewrite Hs. simpl. by rewrite Hc.
Qed.

Lemma registry_inv_same st st' :
  connections st' = connections st → sockets st' = sockets st →
  connectionCounter st' = connectionCounter st →
  (status st' = status st ∨ status st' = Exited 1) →
  registry_inv st → registry_inv st'.
Proof.
  intros Hc Hs Hn Hst [L F T U C X]. split; rewrite ?Hc, ?Hs, ?Hn; try done.
  destruct Hst as [-> | ->]; done.
Qed.

Lemma registry_inv_drained st st' :
  connections st' = connections (drained st) → sockets st' = sockets (drained st) →
  connectionCounter st' = connectionCounter st →
  (status st' = status st ∨ status st' = Exited 1) →
  registry_inv st → registry_inv st'.
Proof.
  intros Hc Hs Hn Hst [L F T U C X].
  assert (∀ h s', sockets st' !! h = Some s' →
            ∃ s, sockets st !! h = Some s ∧ _connectionId s' = _connectionId s) as Hsock.
  { intros h s'. rewrite Hs, drained_sockets_lookup.
    destruct (decide (h ∈ swept st)); [|eauto].
    destruct (sockets st !! h) as [s|]; [|done].
    intros [= <-]. eauto. }
  split; rewrite ?Hn.
  - intros id h. rewrite Hc, Hs, drained_connections_lookup.
    destruct (idle_conn st id) eqn:Hi; [done|]. intros Hid.
    destruct (L id h Hid) as (s & Hh & Hcid & Hd). exists s.
    rewrite drained_sockets_lookup, decide_False; [done|].
    intros (id' & Hid' & Hi')%elem_of_swept.
    destruct (L id' h Hid') as (s' & Hh' & Hcid' & _).
    assert (id' = id) as -> by congruence. congruence.
  - intros id. rewrite Hc, drained_connections_lookup.
    destruct (idle_conn st id); [by intros [? ?]|]. apply F.
  - intros h s' Hs'. destruct (Hsock h s' Hs') as (s & Hh & ->). by eapply T.
  - intros h1 h2 s1 s2 H1 H2.
    destruct (Hsock h1 s1 H1) as (s1' & Hh1 & ->).
    destruct (Hsock h2 s2 H2) as (s2' & Hh2 & ->). by eapply U.
  - by rewrite Hs, drained_sockets_size.
  - destruct Hst as [-> | ->]; done.
Qed.

Lemma registry_inv_shutdown o sig st :
  registry_inv st → registry_inv (shutdown o sig st).1.2.
Proof.
  intros Hinv.
  destruct (shutdown_registry o sig st (registry_inv_wf _ Hinv))
    as (Hn & Hst & [[Hc Hs]|(_ & Hc & Hs)]).
  - by eapply registry_inv_same.
  - by eapply registry_inv_drained.
Qed.

Lemma registry_inv_shutdowns o sigs : ∀ st,
  registry_inv st → registry_inv (shutdowns o sigs st).1.2.
Proof.
  induction sigs as [|sig sigs IH]; intros st Hinv; [done|].
  cbn [shutdowns]. unfold bind.
  pose proof (registry_inv_shutdown o sig st Hinv) as H1.
  destruct (shutdown o sig st) as [[[[]|] st1] e1]; simpl in *; [|done].
  specialize (IH st1 H1). by destruct (shutdowns o sigs st1) as [[r st2] e2].
Qed.

(** The three handlers of finalization touch neither registry nor
    sockets; they end the process, if at all, with status 1. *)
Lemma finalizer_frame o ev st :
  finalizer_event ev = true →
  connections (step o ev st).1 = connections st ∧
  sockets (step o ev st).1 = sockets st ∧
  connectionCounter (step o ev st).1 = connectionCounter st ∧
  isShuttingDown (step o ev st).1 = isShuttingDown st ∧
  (status (step o ev st).1 = status st ∨ status (step o ev st).1 = Exited 1).
Proof.
  intros Hev. unfold step.
  destruct (alive st && enabled ev st); [|simpl; auto 10].
  destruct ev; try done; simpl; unfold exec.
  - unfold on_listener_closed, bind, modify. rewrite handleCallbackThenExit_eq.
    destruct (callback o) as [cb|]; [destruct (cb _)|]; simpl; auto 10.
  - unfold on_timeout, bind, modify, debug, emit. rewrite handleCallbackThenExit_eq.
    destruct (callback o) as [cb|]; [destruct (cb _)|]; simpl; auto 10.
  - unfold on_settled, exit, bind, modify, process_exit. simpl. auto 10.
Qed.

Lemma registry_inv_step o ev st : registry_inv st → registry_inv (step o ev st).1.
Proof.
  intros Hinv.
  destruct (finalizer_event ev) eqn:Hfin.
  { destruct (finalizer_frame o ev st Hfin) as (Hc & Hs & Hn & _ & Hst).
    by eapply registry_inv_same. }
  destruct (alive st) eqn:Ha; [|by rewrite step_dead].
  destruct (enabled ev st) eqn:Hen; [|by rewrite step_disabled].
  destruct Hinv as [L F T U C X].
  destruct ev as [h|h|h|h|sig| | |]; try done; simpl in Hen.
  - apply bool_decide_eq_true_1 in Hen. rewrite step_connection by done.
    split; simpl.
    + intros id h' [[<- <-]|[Hne Hid]]%lookup_insert_Some.
      * rewrite lookup_insert_eq. eauto.
      * destruct (L id h' Hid) as (s & Hs & ?). exists s.
        rewrite lookup_insert_ne by congruence. done.
    + intros id [h' [[<- <-]|[Hne Hid]]%lookup_insert_Some]; [lia|].
      specialize (F id (ltac:(eauto))). lia.
    + intros h' s [[<- <-]|[Hne Hs]]%lookup_insert_Some; simpl; [lia|].
      specialize (T h' s Hs). lia.
    + intros h1 h2 s1 s2 [[<- <-]|[Hne1 H1]]%lookup_insert_Some
        [[<- <-]|[Hne2 H2]]%lookup_insert_Some; simpl; try done.
      * intros Heq. specialize (T h2 s2 H2). lia.
      * intros Heq. specialize (T h1 s1 H1). lia.
      * by eapply U.
    + rewrite map_size_insert_None by done. by rewrite C.
    + done.
  - apply bool_decide_eq_true_1 in Hen as [s0 Hs0]. rewrite step_request by eauto.
    assert (∀ h' s', alter (set_idle false) h (sockets st) !! h' = Some s' →
              ∃ s, sockets st !! h' = Some s ∧ _connectionId s' = _connectionId s ∧
                   destroyed s' = destroyed s) as Hsock.
    { intros h' s'. rewrite lookup_alter. case_decide; [subst|eauto].
      rewrite Hs0. intros [= <-]. eauto. }
    split; simpl; try done.
    + intros id h' Hid. destruct (L id h' Hid) as (s & Hs & Hcid & Hd).
      rewrite lookup_alter. case_decide; [subst|eauto].
      rewrite Hs. simpl. eauto.
    + intros h' s' Hs'. destruct (Hsock h' s' Hs') as (s & Hs & -> & _). by eapply T.
    + intros h1 h2 s1 s2 H1 H2.
      destruct (Hsock h1 s1 H1) as (s1' & Hh1 & -> & _).
      destruct (Hsock h2 s2 H2) as (s2' & Hh2 & -> & _). by eapply U.
    + by rewrite <- !(size_dom (D := gset nat)), dom_alter_L, size_dom.
  - apply bool_decide_eq_true_1 in Hen as [s0 Hs0]. rewrite (step_finish _ _ s0) by done.
    assert (∀ b d h' s', <[h := mkSocket b (_connectionId s0) d]> (sockets st) !! h' = Some s' →
              ∃ s, sockets st !! h' = Some s ∧ _connectionId s' = _connectionId s)
      as Hsock.
    { intros b d h' s' [[<- <-]|[Hne Hs]]%lookup_insert_Some; eauto. }
    destruct (isShuttingDown st); split; simpl; try done.
    + intros id h' [Hne Hid]%lookup_delete_Some.
      destruct (L id h' Hid) as (s & Hs & Hcid & Hd). exists s.
      rewrite lookup_insert_ne; [done|]. intros <-. congruence.
    + intros id [h' [_ Hid]%lookup_delete_Some]. eauto.
    + intros h' s' Hs'. destruct (Hsock _ _ h' s' Hs') as (s & Hs & ->). by eapply T.
    + intros h1 h2 s1 s2 H1 H2.
      destruct (Hsock _ _ h1 s1 H1) as (s1' & Hh1 & ->).
      destruct (Hsock _ _ h2 s2 H2) as (s2' & Hh2 & ->). by eapply U.
    + by rewrite map_size_insert_Some.
    + intros id h' Hid.
      destruct (L id h' Hid) as (s & Hs & Hcid & Hd).
      destruct (decide (h = h')) as [<-|Hne].
      * rewrite lookup_insert_eq. exists (set_idle true s0).
        assert (s = s0) as -> by congruence. done.
      * exists s. by rewrite lookup_insert_ne.
    + intros h' s' Hs'. destruct (Hsock _ _ h' s' Hs') as (s & Hs & ->). by eapply T.
    + intros h1 h2 s1 s2 H1 H2.
      destruct (Hsock _ _ h1 s1 H1) as (s1' & Hh1 & ->).
      destruct (Hsock _ _ h2 s2 H2) as (s2' & Hh2 & ->). by eapply U.
    + by rewrite map_size_insert_Some.
  - apply bool_decide_eq_true_1 in Hen as [s0 Hs0].
    rewrite (step_socket_close _ _ s0) by done.
    split; simpl; try done.
    + intros id h' [_ Hid]%lookup_delete_Some. eauto.
    + intros id [h' [_ Hid]%lookup_delete_Some]. eauto.
  - unfold step. rewrite Ha. simpl. unfold exec. rewrite on_signal_eq.
    pose proof (registry_inv_shutdowns o (filter (λ s, s = sig) (subscribed o)) st
                  (mkRegistryInv _ L F T U C X)) as H.
    by destruct (shutdowns o _ st) as [[r st2] e2].
Qed.

Lemma registry_inv_initial : registry_inv initial.
Proof.
  split; unfold initial; cbn [connections sockets connectionCounter status].
  - intros id h Hid. by apply lookup_empty_Some in Hid.
  - intros id Hid. by apply lookup_empty_is_Some in Hid.
  - intros h s Hs. by apply lookup_empty_Some in Hs.
  - intros h1 h2 s1 s2 Hs. by apply lookup_empty_Some in Hs.
  - by rewrite map_size_empty.
  - done.
Qed.

Lemma registry_inv_run o evs : ∀ st, registry_inv st → registry_inv (run o evs st).1.
Proof.
  induction evs as [|ev evs IH]; intros st Hinv; [done|].
  rewrite run_cons. simpl. by apply IH, registry_inv_step.
Qed.

(** *** The signals option *)

Lemma split_nonempty sep s : split sep s ≠ [].
Proof.
  destruct s as [|c s]; [done|]. cbn [split].
  destruct (split sep s); [done|]. by destruct (decide (c = sep)).
Qed.

Lemma split_free sep w : occurs sep w = false → split sep w = [w].
Proof.
  induction w as [|c w IH]; [done|]. cbn [occurs split].
  destruct (decide (c = sep)); [done|]. intros Hw. by rewrite IH.
Qed.

Lemma split_append sep w rest :
  occurs sep w = false →
  split sep (w +:+ String sep rest) = w :: split sep rest.
Proof.
  induction w as [|c w IH]; cbn [occurs]; intros Hw.
  - change (EmptyString +:+ String sep rest) with (String sep rest). cbn [split].
    pose proof (split_nonempty sep rest).
    destruct (split sep rest) as [|x xs]; [done|].
    by destruct (decide (sep = sep)).
  - destruct (decide (c = sep)); [done|].
    change (String c w +:+ String sep rest) with (String c (w +:+ String sep rest)).
    cbn [split]. rewrite IH by done.
    by destruct (decide (c = sep)).
Qed.

Lemma split_pieces_free sep s : Forall (λ w, occurs sep w = false) (split sep s).
Proof.
  induction s as [|c s IH]; [by repeat constructor|]. cbn [split].
  pose proof (split_nonempty sep s) as Hne.
  destruct (split sep s) as [|w ws]; [done|].
  apply Forall_cons in IH as [Hw Hws].
  destruct (decide (c = sep)) as [->|Hc].
  - by repeat constructor.
  - constructor; [|done]. cbn [occurs]. by destruct (decide (c = sep)).
Qed.

(** Names joined by single blanks come back as they were. *)
Lemma subscribed_joined (o : Options) (names : list string) :
  Forall signal_name names →
  signals o = String.concat " " names →
  subscribed o = names.
Proof.
  intros Hnames Hsig. unfold subscribed. rewrite Hsig. clear Hsig.
  induction names as [|x names IH]; [done|].
  apply Forall_cons in Hnames as [[Hx Hfree] Hnames].
  destruct names as [|y names].
  - cbn [String.concat]. rewrite split_free by done.
    by rewrite filter_cons_True.
  - change (String.concat " " (x :: y :: names))
      with (x +:+ String " "%char (String.concat " " (y :: names))).
    rewrite split_append by done.
    rewrite filter_cons_True by done. by rewrite IH.
Qed.

Lemma register_listeners_all names :
  Forall (λ w, uncatchable w = false) names →
  register_listeners names = (names, false).
Proof.
  induction names as [|w names IH]; [done|].
  intros [Hw Hnames]%Forall_cons. cbn [register_listeners].
  by rewrite Hw, IH.
Qed.

Lemma register_listeners_until before bad after :
  Forall (λ w, uncatchable w = false) before → uncatchable bad = true →
  register_listeners (before ++ bad :: after) = (before, true).
Proof.
  intros Hbefore Hbad. induction before as [|w before IH].
  - cbn [app register_listeners]. by rewrite Hbad.
  - apply Forall_cons in Hbefore as [Hw Hbefore]. cbn [app register_listeners].
    by rewrite Hw, IH.
Qed.

(** X3.  When [signals] is a list of names joined by single blanks, each
    name non-empty and free of blanks: if none of them is SIGKILL or
    SIGSTOP, a listener is installed for exactly these names, in order
    and with repetitions, and nothing is thrown; otherwise listeners are
    installed for the names before the first SIGKILL or SIGSTOP only,
    and [process.on] throws there. *)
Theorem listeners_of_joined_names (o : Options) (names : list string) :
  Forall signal_name names →
  signals o = String.concat " " names →
  (Forall (λ w, uncatchable w = false) names →
     register_listeners (subscribed o) = (names, false)) ∧
  (∀ before bad after,
     names = before ++ bad :: after →
     Forall (λ w, uncatchable w = false) before → uncatchable bad = true →
     register_listeners (subscribed o) = (before, true)).
Proof.
  intros Hnames Hsig. rewrite (subscribed_joined o names Hnames Hsig). split.
  - apply register_listeners_all.
  - intros before bad after -> Hbefore Hbad. by apply register_listeners_until.
Qed.

Lemma listeners_of_joined_names_witness :
  register_listeners (subscribed (mkOptions "SIGHUP SIGUSR2 SIGHUP" 10 false None)) =
    (["SIGHUP"; "SIGUSR2"; "SIGHUP"], false) ∧
  register_listeners (subscribed (mkOptions "SIGINT SIGKILL SIGTERM" 10 false None)) =
    (["SIGINT"], true).
Proof.
  split.
  - apply (listeners_of_joined_names _ ["SIGHUP"; "SIGUSR2"; "SIGHUP"]);
      [repeat constructor; done|reflexivity|repeat constructor; done].
  - apply (proj2 (listeners_of_joined_names
                    (mkOptions "SIGINT SIGKILL SIGTERM" 10 false None)
                    ["SIGINT"; "SIGKILL"; "SIGTERM"]
                    ltac:(repeat constructor; done) eq_refl)
             ["SIGINT"] "SIGKILL" ["SIGTERM"]);
      [reflexivity|repeat constructor; done|reflexivity].
Defined.

(** X4.  Whatever string is passed as [signals], a listener is only ever
    registered for a non-empty name without blanks: leading, trailing
    and repeated blanks register nothing. *)
Theorem subscribed_names_are_proper (o : Options) (w : string) :
  w ∈ subscribed o → signal_name w.
Proof.
  unfold subscribed. intros [Hne Hin]%list_elem_of_filter. split; [done|].
  pose proof (split_pieces_free " "%char (signals o)) as Hall.
  rewrite Forall_forall in Hall. by apply Hall.
Qed.

Lemma subscribed_names_are_proper_witness :
  "SIGTERM" ∈ subscribed (mkOptions "  SIGINT   SIGTERM " 10 false None) ∧
  signal_name "SIGTERM".
Proof.
  assert ("SIGTERM" ∈ subscribed (mkOptions "  SIGINT   SIGTERM " 10 false None)) as Hin
    by (apply (bool_decide_unpack _); vm_compute; exact I).
  split; [exact Hin|]. exact (subscribed_names_are_proper _ _ Hin).
Defined.

(** *** Before any trigger *)

Lemma filter_absent (sig : string) (l : list string) :
  sig ∉ l → filter (λ s, s = sig) l = [].
Proof.
  induction l as [|a l IH]; [done|]. intros [Hne Hl]%not_elem_of_cons.
  rewrite filter_cons_False by congruence. by apply IH.
Qed.

Lemma untriggered_step o ev st :
  untriggered st → no_trigger o ev →
  untriggered (step o ev st).1 ∧ (step o ev st).2 = [].
Proof.
  intros (Ha & Hf & Hc & Ht & Hp) Hev.
  destruct (enabled ev st) eqn:Hen; [|by rewrite step_disabled].
  destruct ev as [h|h|h|h|sig| | |]; simpl in Hen.
  - apply bool_decide_eq_true_1 in Hen. by rewrite step_connection.
  - apply bool_decide_eq_true_1 in Hen. by rewrite step_request.
  - apply bool_decide_eq_true_1 in Hen as [s Hs].
    by rewrite (step_finish _ _ s), Hf.
  - apply bool_decide_eq_true_1 in Hen as [s Hs].
    by rewrite (step_socket_close _ _ s).
  - unfold step. rewrite Ha. simpl. unfold exec.
    by rewrite on_signal_eq, filter_absent.
  - rewrite Hc in Hen. done.
  - rewrite Ht in Hen. done.
  - rewrite Hp in Hen. done.
Qed.

(** X1.  Until a signal it listens for arrives, the library does nothing
    that can be observed: whatever connections open and close, whatever
    requests start and finish, whatever other signals arrive, it
    destroys no socket, does not close the listener, arms no timer, does
    not call the callback and does not call [process.exit]; the flag
    stays down and none of its callbacks is left waiting in the runtime. *)
Theorem silent_until_triggered (o : Options) (evs : list Event) :
  Forall (no_trigger o) evs →
  (run o evs initial).2 = [] ∧
  isShuttingDown (run o evs initial).1 = false ∧
  closeCallbacks (run o evs initial).1 = 0 ∧
  timers (run o evs initial).1 = 0 ∧
  thenHandlers (run o evs initial).1 = 0.
Proof.
  assert (∀ st, untriggered st → Forall (no_trigger o) evs →
            (run o evs st).2 = [] ∧ untriggered (run o evs st).1) as Hgen.
  { induction evs as [|ev evs IH]; intros st Hst Hall; [done|].
    apply Forall_cons in Hall as [Hev Hall].
    destruct (untriggered_step o ev st Hst Hev) as [Hst1 He1].
    destruct (IH _ Hst1 Hall) as [He2 Hst2].
    rewrite run_cons. simpl. by rewrite He1, He2. }
  intros Hall. destruct (Hgen initial) as (He & _ & Hf & Hc & Ht & Hp); done.
Qed.

Lemma silent_until_triggered_witness :
  (run (make_options None)
     [EvConnection 4; EvRequest 4; EvSignal "SIGWINCH"; EvFinish 4; EvTimeout;
      EvSocketClose 4; EvListenerClosed] initial).2 = [].
Proof.
  refine (proj1 (silent_until_triggered _ _ _)).
  repeat constructor. by apply (bool_decide_unpack _).
Defined.

(** *** Requests and responses *)

(** X6.  While the library is not draining, a request followed by the
    finish of its response brings an idle connection back to exactly the
    state it was in: still registered, idle, nothing destroyed. *)
Theorem request_finish_round_trip (o : Options) (st : State) (h : nat) (s : Socket) :
  alive st = true → isShuttingDown st = false →
  sockets st !! h = Some s → _isIdle s = true →
  _isIdle <$> sockets (step o (EvRequest h) st).1 !! h = Some false ∧
  run o [EvRequest h; EvFinish h] st = (st, []).
Proof.
  intros Ha Hf Hs Hi. rewrite run_cons. rewrite step_request by eauto.
  cbn [fst snd run]. split.
  { cbn [sockets set_sockets]. by rewrite lookup_alter_eq, Hs. }
  rewrite (step_finish _ _ (set_idle false s));
    [|done|cbn [sockets set_sockets]; by rewrite lookup_alter_eq, Hs].
  cbn [isShuttingDown set_sockets]. rewrite Hf.
  cbn [fst snd app]. f_equal.
  destruct st as [f c n socks cc t p k x]. unfold set_sockets. cbn in *. f_equal.
  apply map_eq. intros h'. rewrite lookup_insert, lookup_alter.
  destruct (decide (h = h')) as [<-|Hne].
  - rewrite Hs. by destruct s as [[] cid d].
  - done.
Qed.

Lemma request_finish_round_trip_witness :
  let o := make_options None in
  let st := (run o [EvConnection 4; EvConnection 5] initial).1 in
  run o [EvRequest 5; EvFinish 5] st = (st, []).
Proof.
  intros o st.
  exact (proj2 (request_finish_round_trip o st 5 (mkSocket true 1 false)
                  eq_refl eq_refl eq_refl eq_refl)).
Defined.

Lemma finalizer_no_drain o ev st :
  finalizer_event ev = true → drain_steps (step o ev st).2 = [].
Proof.
  intros Hev. unfold step.
  destruct (alive st && enabled ev st); [|done].
  destruct ev; try done; simpl;
    unfold exec, on_listener_closed, on_timeout, bind, modify, debug, emit;
    rewrite ?handleCallbackThenExit_eq; try done;
    by destruct (callback o) as [cb|]; [destruct (cb _)|].
Qed.

(** X7.  The idle mark of a socket follows its own events only: the
    start of a request on it marks it busy, the finish of a response on
    it marks it idle, its 'connection' event creates it idle, and no
    other event — on another socket, a signal, the listener, the timer,
    a promise — changes the mark. *)
Theorem idle_mark_follows_own_events (o : Options) (ev : Event) (st : State) (h : nat) :
  (ev ≠ EvConnection h → ev ≠ EvRequest h → ev ≠ EvFinish h →
     _isIdle <$> sockets (step o ev st).1 !! h = _isIdle <$> sockets st !! h) ∧
  (alive st = true → is_Some (sockets st !! h) →
     _isIdle <$> sockets (step o (EvRequest h) st).1 !! h = Some false ∧
     _isIdle <$> sockets (step o (EvFinish h) st).1 !! h = Some true) ∧
  (alive st = true → sockets st !! h = None →
     _isIdle <$> sockets (step o (EvConnection h) st).1 !! h = Some true).
Proof.
  split; [|split].
  - intros Hc Hr Hfi.
    destruct (alive st) eqn:Ha; [|by rewrite step_dead].
    destruct (shutdown_event ev) eqn:Hev.
    { apply (q_idle _ _ _ (step_quiet o ev st Hev Ha)). }
    destruct (enabled ev st) eqn:Hen; [|by rewrite step_disabled].
    destruct ev as [h'|h'|h'|h'| | | |]; try done; simpl in Hen.
    + apply bool_decide_eq_true_1 in Hen. rewrite step_connection by done.
      simpl. rewrite lookup_insert_ne; [done|congruence].
    + apply bool_decide_eq_true_1 in Hen. rewrite step_request by done.
      simpl. rewrite lookup_alter_ne; [done|congruence].
    + apply bool_decide_eq_true_1 in Hen as [s Hs].
      rewrite (step_finish _ _ s) by done.
      destruct (isShuttingDown st); simpl;
        (rewrite lookup_insert_ne; [done|congruence]).
    + apply bool_decide_eq_true_1 in Hen as [s Hs].
      by rewrite (step_socket_close _ _ s).
  - intros Ha [s Hs]. split.
    + rewrite step_request by eauto. simpl.
      by rewrite lookup_alter_eq, Hs.
    + rewrite (step_finish _ _ s) by done.
      destruct (isShuttingDown st); simpl;
        by rewrite lookup_insert_eq.
  - intros Ha Hs. rewrite step_connection by done.
    simpl. by rewrite lookup_insert_eq.
Qed.

Lemma idle_mark_follows_own_events_witness :
  let o := make_options None in
  let st := (run o [EvConnection 4; EvConnection 5; EvRequest 5] initial).1 in
  _isIdle <$> sockets (step o (EvFinish 4) st).1 !! 5 = Some false ∧
  _isIdle <$> sockets (step o (EvFinish 5) st).1 !! 5 = Some true.
Proof.
  intros o st.
  destruct (idle_mark_follows_own_events o (EvFinish 4) st 5) as (H1 & H2 & _).
  split.
  - rewrite H1 by done. reflexivity.
  - apply H2; [reflexivity|]. by eexists.
Defined.

(** *** The 'close' event of a socket *)

(** X8.  When a socket closes, its entry leaves the registry whether it
    was idle or busy, and nothing else changes; a second 'close' changes
    nothing; and the 'close' that follows the library's own
    [socket.destroy()] finds the entry already gone. *)
Theorem socket_close_unregisters (o : Options) (st : State) (id h : nat) :
  wf st → alive st = true → connections st !! id = Some h →
  (step o (EvSocketClose h) st).2 = [] ∧
  connections (step o (EvSocketClose h) st).1 = delete id (connections st) ∧
  sockets (step o (EvSocketClose h) st).1 = sockets st ∧
  step o (EvSocketClose h) (step o (EvSocketClose h) st).1 =
    ((step o (EvSocketClose h) st).1, []) ∧
  (isShuttingDown st = true →
     step o (EvSocketClose h) (step o (EvFinish h) st).1 =
       ((step o (EvFinish h) st).1, [])).
Proof.
  intros Hwf Ha Hid.
  destruct (wf_lookup _ _ _ Hwf Hid) as (s & Hs & Hcid).
  rewrite (step_socket_close _ _ s), Hcid by done. cbn [fst snd].
  split; [done|]. split; [done|]. split; [done|]. split.
  - rewrite (step_socket_close _ _ s), Hcid by done.
    destruct st as [f c n socks cc t p k x]. unfold set_connections. cbn.
    by rewrite delete_delete_eq.
  - intros Hf. rewrite (step_finish _ _ s), Hf by done. cbn [fst].
    rewrite (step_socket_close _ _ (mkSocket true (_connectionId s) true));
      [|done|cbn; by rewrite lookup_insert_eq].
    destruct st as [f c n socks cc t p k x]. unfold set_connections, set_sockets.
    cbn. by rewrite delete_delete_eq.
Qed.

Lemma socket_close_unregisters_witness :
  let o := make_options None in
  let st := (run o [EvConnection 4; EvConnection 5; EvRequest 5] initial).1 in
  connections (step o (EvSocketClose 5) st).1 = delete 1 (connections st).
Proof.
  intros o st.
  assert (wf st) as Hwf by (apply (bool_decide_unpack _); vm_compute; exact I).
  exact (proj1 (proj2 (socket_close_unregisters o st 1 5 Hwf eq_refl eq_refl))).
Defined.

(** *** The registry in every reachable state *)

(** X5.  Connection ids are never reused: in every reachable state each
    registered id is below [connectionCounter], two socket objects never
    carry the same [_connectionId], and the counter is the number of
    connections accepted so far; so the next 'connection' takes a free
    slot of the registry, which grows by exactly one entry. *)
Theorem connection_ids_are_fresh (o : Options) (evs : list Event) (h : nat) :
  (∀ id, is_Some (connections (run o evs initial).1 !! id) →
         id < connectionCounter (run o evs initial).1) ∧
  (∀ h1 h2 s1 s2,
     sockets (run o evs initial).1 !! h1 = Some s1 →
     sockets (run o evs initial).1 !! h2 = Some s2 →
     _connectionId s1 = _connectionId s2 → h1 = h2) ∧
  connectionCounter (run o evs initial).1 = size (sockets (run o evs initial).1) ∧
  (alive (run o evs initial).1 = true → sockets (run o evs initial).1 !! h = None →
     connections (run o evs initial).1 !! connectionCounter (run o evs initial).1 = None ∧
     connections (step o (EvConnection h) (run o evs initial).1).1
       = <[connectionCounter (run o evs initial).1 := h]>
           (connections (run o evs initial).1) ∧
     size (connections (step o (EvConnection h) (run o evs initial).1).1)
       = S (size (connections (run o evs initial).1)) ∧
     connectionCounter (step o (EvConnection h) (run o evs initial).1).1
       = S (connectionCounter (run o evs initial).1)).
Proof.
  pose proof (registry_inv_run o evs initial registry_inv_initial) as [L F T U C X].
  set (st := (run o evs initial).1) in *.
  split; [exact F|]. split; [exact U|]. split; [exact C|].
  intros Ha Hh.
  assert (connections st !! connectionCounter st = None) as Hfree.
  { destruct (connections st !! connectionCounter st) eqn:Hc; [|done].
    specialize (F (connectionCounter st) (ltac:(eauto))). lia. }
  rewrite step_connection by done. simpl.
  split; [done|]. split; [done|]. split; [|done].
  by rewrite map_size_insert_None.
Qed.

Lemma connection_ids_are_fresh_witness :
  let o := make_options None in
  let st := (run o [EvConnection 4; EvSocketClose 4; EvConnection 5] initial).1 in
  connections st !! connectionCounter st = None ∧
  size (connections (step o (EvConnection 9) st).1) = S (size (connections st)).
Proof.
  intros o st.
  destruct (connection_ids_are_fresh o [EvConnection 4; EvSocketClose 4; EvConnection 5] 9)
    as (_ & _ & _ & H).
  destruct (H eq_refl eq_refl) as (H1 & _ & H2 & _). split; [exact H1|exact H2].
Defined.

(** X9.  The registry only ever holds sockets the library has not
    destroyed: in every reachable state a registered id points at an
    existing socket object tagged with that id and not yet destroyed. *)
Theorem registered_sockets_are_open (o : Options) (evs : list Event) (id h : nat) :
  connections (run o evs initial).1 !! id = Some h →
  ∃ s, sockets (run o evs initial).1 !! h = Some s ∧
       _connectionId s = id ∧ destroyed s = false.
Proof. apply (r_live _ (registry_inv_run o evs initial registry_inv_initial)). Qed.

Lemma registered_sockets_are_open_witness :
  let o := make_options None in
  let evs := [EvConnection 4; EvConnection 5; EvRequest 5; EvSignal "SIGINT"] in
  connections (run o evs initial).1 !! 1 = Some 5 ∧
  ∃ s, sockets (run o evs initial).1 !! 5 = Some s ∧
       _connectionId s = 1 ∧ destroyed s = false.
Proof.
  intros o evs.
  assert (connections (run o evs initial).1 !! 1 = Some 5) as H by reflexivity.
  split; [exact H|]. exact (registered_sockets_are_open o evs 1 5 H).
Defined.

(** X10.  The sweep never dereferences a missing entry: in every
    reachable state [connections[key]] is a socket object for every key
    of [Object.keys(connections)], so the [forEach] runs to its end, and
    no run of the library ends in an uncaught TypeError. *)
Theorem sweep_never_throws (o : Options) (evs : list Event) (counter : nat) :
  status (run o evs initial).1 ≠ Crashed ∧
  (sweep (Object_keys (connections (run o evs initial).1)) counter
     (run o evs initial).1).1.1
    = Some (size (connections (run o evs initial).1) + counter).
Proof.
  pose proof (registry_inv_run o evs initial registry_inv_initial) as Hinv.
  pose proof (registry_inv_wf _ Hinv) as Hwf.
  set (st := (run o evs initial).1) in *.
  split; [apply (r_status _ Hinv)|].
  destruct (isShuttingDown st) eqn:Hf.
  - rewrite sweep_draining;
      [|done|done|apply Object_keys_NoDup|intros k; by rewrite elem_of_Object_keys].
    simpl. by rewrite length_Object_keys.
  - rewrite sweep_not_draining;
      [|done|done|intros k; by rewrite elem_of_Object_keys].
    simpl. by rewrite length_Object_keys.
Qed.

(** *** After the drain *)

Lemma idle_conn_drained st id :
  idle_conn (drained st) id = false.
Proof.
  unfold idle_conn. rewrite drained_connections_lookup.
  destruct (idle_conn st id) eqn:Hi; [done|].
  destruct (connections st !! id) as [h|] eqn:Hid; [|done].
  rewrite drained_sockets_lookup. unfold idle_conn in Hi. rewrite Hid in Hi.
  destruct (decide (h ∈ swept st)); destruct (sockets st !! h) as [s|]; done.
Qed.

(** X12.  When the first trigger returns, the registry holds no idle
    connection any more: what is left was registered before and is in
    the middle of a request.  If every connection was idle at the
    trigger, the registry is empty. *)
Theorem drain_leaves_only_busy (o : Options) (sig : string) (st : State) :
  wf st → isShuttingDown st = false → is_Some (shutdown o sig st).1.1 →
  (∀ id h, connections (shutdown o sig st).1.2 !! id = Some h →
     connections st !! id = Some h ∧ idle_conn st id = false ∧
     idle_conn (shutdown o sig st).1.2 id = false) ∧
  ((∀ id, is_Some (connections st !! id) → idle_conn st id = true) →
     connections (shutdown o sig st).1.2 = ∅).
Proof.
  intros Hwf Hf Hret.
  destruct (first_shutdown_state o sig st Hwf Hf Hret) as [Hc Hs].
  assert (∀ id, idle_conn (shutdown o sig st).1.2 id = idle_conn (drained st) id) as Hi.
  { intros id. unfold idle_conn. by rewrite Hc, Hs. }
  split.
  - intros id h. rewrite Hi, idle_conn_drained, Hc, drained_connections_lookup.
    by destruct (idle_conn st id).
  - intros Hall. apply map_eq. intros id.
    rewrite Hc, drained_connections_lookup, lookup_empty.
    destruct (idle_conn st id) eqn:Hid; [done|].
    destruct (connections st !! id) eqn:Hl; [|done].
    rewrite Hall in Hid by eauto. done.
Qed.

Lemma drain_leaves_only_busy_witness :
  let o := make_options None in
  let st := (run o [EvConnection 4; EvConnection 5; EvRequest 5] initial).1 in
  connections (shutdown o "SIGTERM" st).1.2 !! 1 = Some 5 ∧
  idle_conn (shutdown o "SIGTERM" st).1.2 1 = false.
Proof.
  intros o st.
  assert (wf st) as Hwf by (apply (bool_decide_unpack _); vm_compute; exact I).
  assert (is_Some (shutdown o "SIGTERM" st).1.1) as Hret
    by (vm_compute; eexists; reflexivity).
  assert (connections (shutdown o "SIGTERM" st).1.2 !! 1 = Some 5) as Hid
    by (vm_compute; reflexivity).
  split; [exact Hid|].
  exact (proj2 (proj2 (proj1 (drain_leaves_only_busy o "SIGTERM" st Hwf eq_refl Hret)
                         1 5 Hid))).
Defined.

(** X13.  Once the flag is up, a socket is destroyed only by the finish
    of a response written to it: no later signal, no connection, request
    or close event, and neither the listener's callback, the timer nor a
    settled promise destroys a socket.  A connection that stays idle
    after the sweep is therefore left to the end of the process. *)
Theorem draining_destroys_only_on_finish (o : Options) (ev : Event) (st : State)
    (h : nat) :
  isShuttingDown st = true → ev ≠ EvFinish h →
  ESocketDestroy h ∉ (step o ev st).2.
Proof.
  intros Hf Hne Hin.
  assert (ESocketDestroy h ∈ drain_steps (step o ev st).2) as Hd
    by (by apply list_elem_of_filter).
  destruct (finalizer_event ev) eqn:Hfin.
  { rewrite finalizer_no_drain in Hd by done. by apply elem_of_nil in Hd. }
  destruct (alive st) eqn:Ha; [|rewrite step_dead in Hin by done; by apply elem_of_nil in Hin].
  destruct (enabled ev st) eqn:Hen;
    [|rewrite step_disabled in Hin by done; by apply elem_of_nil in Hin].
  destruct ev as [h'|h'|h'|h'|sig| | |]; try done; simpl in Hen.
  - apply bool_decide_eq_true_1 in Hen. rewrite step_connection in Hin by done.
    by apply elem_of_nil in Hin.
  - apply bool_decide_eq_true_1 in Hen. rewrite step_request in Hin by done.
    by apply elem_of_nil in Hin.
  - apply bool_decide_eq_true_1 in Hen as [s Hs].
    rewrite (step_finish _ _ s), Hf in Hin by done.
    apply list_elem_of_singleton in Hin. congruence.
  - apply bool_decide_eq_true_1 in Hen as [s Hs].
    rewrite (step_socket_close _ _ s) in Hin by done. by apply elem_of_nil in Hin.
  - destruct (signal_when_draining o sig st Hf) as [_ Hnone].
    rewrite Hnone in Hd. by apply elem_of_nil in Hd.
Qed.

Lemma draining_destroys_only_on_finish_witness :
  let o := make_options None in
  let st := (run o [EvSignal "SIGTERM"; EvConnection 4] initial).1 in
  isShuttingDown st = true ∧
  (ESocketDestroy 4 ∉ (step o (EvSignal "SIGINT") st).2).
Proof.
  intros o st. split; [reflexivity|].
  apply (draining_destroys_only_on_finish o (EvSignal "SIGINT") st 4); done.
Defined.

(** *** The life of the process *)

Lemma filter_present (sig : string) (l : list string) :
  sig ∈ l → ∃ rest, filter (λ s, s = sig) l = sig :: rest.
Proof.
  intros Hin.
  destruct (filter (λ s, s = sig) l) as [|sig' rest] eqn:Hl.
  - assert (sig ∈ filter (λ s, s = sig) l) as Hin' by (by apply list_elem_of_filter).
    rewrite Hl in Hin'. by apply elem_of_nil in Hin'.
  - assert (sig' ∈ filter (λ s, s = sig) l) as Hin' by (rewrite Hl; left).
    apply list_elem_of_filter in Hin' as [-> _]. eauto.
Qed.


(** A trigger in graceful mode, in closed form. *)
Lemma graceful_shutdown_eq o sig st :
  wf st → development o = false →
  shutdown o sig st =
  if isShuttingDown st then (Some tt, st, [EDebug (DbgSignal sig)])
  else
    (Some tt, drained st,
     EDebug (DbgSignal sig) ::
     [EDebug DbgShuttingDown; EServerClose] ++
     (ESocketDestroy <$> swept st) ++
     [EDebug (DbgDestroyed (size (connections st)));
      EDebug (DbgCounter (connectionCounter st));
      ESetTimeout (timeout o)]).
Proof.
  intros Hwf Hdev. rewrite shutdown_cases, Hdev.
  destruct (isShuttingDown st); [done|]. by rewrite drain_eq.
Qed.




(** X14.  The forced path is always there: a trigger in graceful mode
    leaves both the listener's callback and the timer pending, and when
    the timer fires (no callback, or one that returns synchronously) the
    process exits with status 1 whatever the connections are doing —
    the registry and the sockets are left as they were, busy ones
    included. *)
Theorem timeout_forces_exit (o : Options) (sig : string) (st : State) :
  wf st → alive st = true → isShuttingDown st = false → development o = false →
  (callback o = None ∨
   ∃ cb, callback o = Some cb ∧ cb (callbackCalls st) = NotThenable) →
  enabled EvListenerClosed (shutdown o sig st).1.2 = true ∧
  enabled EvTimeout (shutdown o sig st).1.2 = true ∧
  status (step o EvTimeout (shutdown o sig st).1.2).1 = Exited 1 ∧
  connections (step o EvTimeout (shutdown o sig st).1.2).1
    = connections (shutdown o sig st).1.2 ∧
  sockets (step o EvTimeout (shutdown o sig st).1.2).1
    = sockets (shutdown o sig st).1.2.
Proof.
  intros Hwf Ha Hf Hdev Hcb.
  rewrite graceful_shutdown_eq, Hf by done. cbn [fst snd].
  split; [done|]. split; [done|].
  destruct (finalizer_frame o EvTimeout (drained st) eq_refl) as (Hc & Hs & _).
  split; [|done].
  assert (alive (drained st) = true) as Ha' by done.
  destruct (finalizer_arrival o EvTimeout (drained st) Ha' (or_intror eq_refl) eq_refl)
    as (st0 & es0 & _ & Hcc & _ & Hstep).
  rewrite handleCallbackThenExit_eq in Hstep.
  destruct Hcb as [Hcb|(cb & Hcb & Hr)]; rewrite Hcb in Hstep.
  - by rewrite Hstep.
  - rewrite Hcc in Hstep. cbn [callbackCalls drained] in Hstep.
    rewrite Hr in Hstep. by rewrite Hstep.
Qed.

Lemma timeout_forces_exit_witness :
  let o := make_options None in
  let st := (run o [EvConnection 4; EvRequest 4] initial).1 in
  status (step o EvTimeout (shutdown o "SIGTERM" st).1.2).1 = Exited 1 ∧
  sockets (step o EvTimeout (shutdown o "SIGTERM" st).1.2).1 !! 4
    = Some (mkSocket false 0 false).
Proof.
  intros o st.
  assert (wf st) as Hwf by (apply (bool_decide_unpack _); vm_compute; exact I).
  destruct (timeout_forces_exit o "SIGTERM" st Hwf eq_refl eq_refl eq_refl
              (or_introl eq_refl)) as (_ & _ & H1 & _ & H2).
  split; [exact H1|]. rewrite H2. reflexivity.
Defined.

(** X16.  Development mode without a callback, or with one that returns
    synchronously: a subscribed signal ends the process with status 1 at
    once — a single [process.exit(1)], no listener close, no socket
    destroyed, no timer, the flag, the registry and the sockets untouched. *)
Theorem dev_mode_exits_at_once (o : Options) (sig : string) (st : State) :
  alive st = true → development o = true → sig ∈ subscribed o →
  (callback o = None ∨
   ∃ cb, callback o = Some cb ∧ cb (callbackCalls st) = NotThenable) →
  status (step o (EvSignal sig) st).1 = Exited 1 ∧
  exits (step o (EvSignal sig) st).2 = [EProcessExit 1] ∧
  drain_steps (step o (EvSignal sig) st).2 = [] ∧
  isShuttingDown (step o (EvSignal sig) st).1 = isShuttingDown st ∧
  connections (step o (EvSignal sig) st).1 = connections st ∧
  sockets (step o (EvSignal sig) st).1 = sockets st.
Proof.
  intros Ha Hdev Hin Hcb. unfold step. rewrite Ha. simpl. unfold exec.
  rewrite on_signal_eq. destruct (filter_present sig _ Hin) as [rest ->].
  cbn [shutdowns]. unfold bind. rewrite shutdown_cases, Hdev.
  destruct Hcb as [->|(cb & -> & ->)]; done.
Qed.

Lemma dev_mode_exits_at_once_witness :
  let o := make_options (Some (mkRaw None None (Some true) None)) in
  let st := (run o [EvConnection 4] initial).1 in
  status (step o (EvSignal "SIGINT") st).1 = Exited 1 ∧
  drain_steps (step o (EvSignal "SIGINT") st).2 = [].
Proof.
  intros o st.
  assert ("SIGINT" ∈ subscribed o) as Hin
    by (apply (bool_decide_unpack _); vm_compute; exact I).
  destruct (dev_mode_exits_at_once o "SIGINT" st eq_refl eq_refl Hin (or_introl eq_refl))
    as (H1 & _ & H2 & _).
  split; [exact H1|exact H2].
Defined.

(** *** The log line of [exit] *)

Section Emits.
Context {A B : Type} (P : Effect → Prop).

Lemma emits_bind (m : M A) (f : A → M B) :
  emits P m → (∀ a, emits P (f a)) → emits P (bind m f).
Proof.
  intros Hm Hf st. unfold bind. specialize (Hm st).
  destruct (m st) as [[[a|] st1] e1]; [|done].
  specialize (Hf a st1). destruct (f a st1) as [[r st2] e2].
  simpl in *. by apply Forall_app.
Qed.

Lemma emits_ret (a : A) : emits P (ret a).
Proof. intros st. constructor. Qed.

Lemma emits_gets (f : State → A) : emits P (gets f).
Proof. intros st. constructor. Qed.

End Emits.

Lemma emits_modify P f : emits P (modify f).
Proof. intros st. constructor. Qed.

Lemma emits_emit (P : Effect → Prop) e : P e → emits P (emit e).
Proof. intros He st. by repeat constructor. Qed.

Lemma emits_exit err : emits not_closed_log (exit err).
Proof. intros st. unfold exit, bind, process_exit. simpl. by repeat constructor. Qed.

Lemma emits_socket_of h : emits not_closed_log (socket_of h).
Proof.
  intros st. unfold socket_of, throw_TypeError.
  destruct (sockets st !! h); constructor.
Qed.

Lemma emits_throw {A} : emits not_closed_log (@throw_TypeError A).
Proof. intros st. constructor. Qed.

Lemma emits_call_callback cb : emits not_closed_log (call_callback cb).
Proof. intros st. unfold call_callback. simpl. by repeat constructor. Qed.

Create HintDb emits.
#[local] Hint Resolve emits_ret emits_gets emits_modify emits_exit emits_socket_of
  emits_throw emits_call_callback : emits.
#[local] Hint Extern 1 (emits _ (emit _)) => (apply emits_emit; done) : emits.
#[local] Hint Extern 1 (emits _ (debug _)) => (apply emits_emit; done) : emits.

Ltac emits_steps :=
  repeat first
    [ solve [auto with emits]
    | apply emits_bind; [|intros ?]
    | match goal with |- emits _ (if ?b then _ else _) => destruct b end
    | match goal with |- emits _ (match ?x with _ => _ end) => destruct x end ].

Lemma emits_destroy h : emits not_closed_log (destroy h).
Proof. unfold destroy, socket_destroy, delete_connection. emits_steps. Qed.

Lemma emits_handleCallbackThenExit o : emits not_closed_log (handleCallbackThenExit o).
Proof. unfold handleCallbackThenExit, promise_then. emits_steps. Qed.

Lemma emits_sweep keys : ∀ c, emits not_closed_log (sweep keys c).
Proof.
  induction keys as [|k keys IH]; intros c; cbn [sweep]; [apply emits_ret|].
  apply emits_bind; [apply emits_gets|]. intros [h|]; [|apply emits_throw].
  apply emits_bind; [apply emits_destroy|]. intros _. apply IH.
Qed.

Lemma emits_shutdown o sig : emits not_closed_log (shutdown o sig).
Proof.
  pose proof emits_sweep. pose proof (emits_handleCallbackThenExit o).
  unfold shutdown, drain, server_close, setTimeout_unref. emits_steps.
Qed.

Lemma emits_on_signal o sig listeners : emits not_closed_log (on_signal o listeners sig).
Proof.
  induction listeners as [|signal rest IH]; cbn [on_signal]; [apply emits_ret|].
  apply emits_bind; [|intros _; apply IH].
  case_decide; [apply emits_shutdown|apply emits_ret].
Qed.

Lemma emits_handler o ev : emits not_closed_log (handler o ev).
Proof.
  pose proof (emits_handleCallbackThenExit o). pose proof emits_destroy.
  destruct ev; simpl; [| | | |apply emits_on_signal| | |];
    unfold on_connection, on_request, on_finish, on_socket_close, delete_connection,
      on_listener_closed, on_timeout, on_settled; emits_steps.
Qed.

(** X15.  The call [debug("closed", err)] in [exit] sits after
    [process.exit(1)] and never runs: no run of the library logs it, so
    the reason of a rejected callback promise is never reported. *)
Theorem exit_never_logs (o : Options) (evs : list Event) (st : State)
    (err : option string) :
  EDebug (DbgClosed err) ∉ (run o evs st).2.
Proof.
  assert (Forall not_closed_log (run o evs st).2) as Hall.
  { revert st. induction evs as [|ev evs IH]; intros st; [constructor|].
    rewrite run_cons. simpl. apply Forall_app. split; [|apply IH].
    unfold step. destruct (alive st && enabled ev st); [|constructor].
    unfold exec. pose proof (emits_handler o ev st) as H.
    by destruct (handler o ev st) as [[r st'] es]. }
  intros Hin. rewrite Forall_forall in Hall. by apply (Hall _ Hin err).
Qed.

(** *** Signals through the event loop *)

(** X2.  A signal the library has no listener for is none of its
    business, at any time: nothing is recorded and nothing is done. *)
Theorem unsubscribed_signal_is_ignored (o : Options) (sig : string) (st : State) :
  sig ∉ subscribed o → step o (EvSignal sig) st = (st, []).
Proof.
  intros Hsig. unfold step. destruct (alive st && enabled (EvSignal sig) st); [|done].
  simpl. unfold exec. by rewrite on_signal_eq, filter_absent.
Qed.

Lemma unsubscribed_signal_is_ignored_witness :
  let o := make_options (Some (mkRaw (Some "SIGTERM") None None None)) in
  let st := (run o [EvConnection 4] initial).1 in
  step o (EvSignal "SIGINT") st = (st, []).
Proof.
  intros o st. apply (unsubscribed_signal_is_ignored o "SIGINT" st).
  by apply (bool_decide_unpack _).
Defined.

Lemma signals_when_draining o sigs : ∀ st,
  isShuttingDown st = true → drain_steps (run o (EvSignal <$> sigs) st).2 = [].
Proof.
  induction sigs as [|sig sigs IH]; intros st Hf; [done|].
  cbn [fmap list_fmap]. rewrite run_cons. cbn [snd].
  destruct (signal_when_draining o sig st Hf) as [Hf1 Hnone].
  by rewrite drain_steps_app, Hnone, IH.
Qed.

(** X17.  In graceful mode, a subscribed signal followed by any further
    signals, subscribed or not, with one listener each or several, runs
    the drain sequence exactly once: one listener close, one sweep of
    the sockets idle at the first signal, one timer with the configured
    timeout. *)
Theorem signal_sequence_drains_once (o : Options) (sig : string) (sigs : list string)
    (st : State) :
  wf st → alive st = true → isShuttingDown st = false →
  development o = false → sig ∈ subscribed o →
  drain_steps (run o (EvSignal sig :: (EvSignal <$> sigs)) st).2 =
    EServerClose :: (ESocketDestroy <$> swept st) ++ [ESetTimeout (timeout o)].
Proof.
  intros Hwf Ha Hf Hdev Hin. rewrite run_cons. cbn [snd].
  destruct (signal_drains_once o sig st Hwf Ha Hf Hdev Hin) as [Hf1 Hsteps].
  by rewrite drain_steps_app, Hsteps, signals_when_draining, app_nil_r.
Qed.

Lemma signal_sequence_drains_once_witness :
  let o := make_options (Some (mkRaw (Some "SIGINT SIGTERM SIGINT") (Some 500%Z) None None)) in
  let st := (run o [EvConnection 4; EvConnection 5; EvRequest 4] initial).1 in
  drain_steps (run o (EvSignal "SIGINT" :: (EvSignal <$> ["SIGTERM"; "SIGHUP"; "SIGINT"])) st).2
    = [EServerClose; ESocketDestroy 5; ESetTimeout 500].
Proof.
  intros o st.
  apply (signal_sequence_drains_once o "SIGINT" ["SIGTERM"; "SIGHUP"; "SIGINT"] st).
  - apply (bool_decide_unpack _). vm_compute. exact I.
  - reflexivity.
  - reflexivity.
  - reflexivity.
  - apply (bool_decide_unpack _). vm_compute. exact I.
Defined.
